(** * The minipool manager mappings of the Rocket Pool subgraph

    A shallow embedding of [src/mappings/rocketMinipoolManager.ts]: the three
    handlers ([handleMinipoolCreated], [handleMinipoolDestroyed],
    [handleIncrementNodeFinalisedMinipoolCount]) and their helpers
    ([getNewMinipoolFee], [setEffectiveRPLStaked],
    [getAverageFeeForActiveMinipools]), followed by the properties the
    specification states about them.

    Conventions.
    - [BigInt] is [Z]; [plus], [minus] are [+], [-]; [div] truncates ([Z.quot]).
    - An [Address] is the string its [toHexString] gives.
    - The entity store is a pair of finite maps keyed by entity id;
      [save] writes under the [id] field of the object saved.
    - A nullable reference is an [option].
    - A contract call either returns a value or reverts; a revert aborts the
      handler that issued it. *)

From Stdlib Require Import ZArith List Lia.
From stdpp Require Import base option list gmap strings.

Open Scope Z_scope.

(** ** Entities (generated schema) *)

Module Minipool.
Record t : Type := mk {
  id : string;
  node : option string;
  fee : Z;
  destroyedBlockTime : Z;
  finalizedBlockTime : Z
}.

Definition set_destroyedBlockTime (v : Z) (m : t) : t :=
  mk (id m) (node m) (fee m) v (finalizedBlockTime m).

Definition set_finalizedBlockTime (v : Z) (m : t) : t :=
  mk (id m) (node m) (fee m) (destroyedBlockTime m) v.
End Minipool.

Module Node.
Record t : Type := mk {
  id : string;
  minipoolIds : option (list (option string));
  totalFinalizedMinipools : Z;
  withdrawableMinipools : Z;
  effectiveRPLStaked : Z;
  minimumEffectiveRPL : Z;
  maximumEffectiveRPL : Z;
  averageFeeForActiveMinipools : Z
}.

Definition set_minipoolIds (v : option (list (option string))) (n : t) : t :=
  mk (id n) v (totalFinalizedMinipools n) (withdrawableMinipools n)
     (effectiveRPLStaked n) (minimumEffectiveRPL n) (maximumEffectiveRPL n)
     (averageFeeForActiveMinipools n).

Definition set_totalFinalizedMinipools (v : Z) (n : t) : t :=
  mk (id n) (minipoolIds n) v (withdrawableMinipools n)
     (effectiveRPLStaked n) (minimumEffectiveRPL n) (maximumEffectiveRPL n)
     (averageFeeForActiveMinipools n).

Definition set_withdrawableMinipools (v : Z) (n : t) : t :=
  mk (id n) (minipoolIds n) (totalFinalizedMinipools n) v
     (effectiveRPLStaked n) (minimumEffectiveRPL n) (maximumEffectiveRPL n)
     (averageFeeForActiveMinipools n).

Definition set_effectiveRPLStaked (v : Z) (n : t) : t :=
  mk (id n) (minipoolIds n) (totalFinalizedMinipools n) (withdrawableMinipools n)
     v (minimumEffectiveRPL n) (maximumEffectiveRPL n)
     (averageFeeForActiveMinipools n).

Definition set_minimumEffectiveRPL (v : Z) (n : t) : t :=
  mk (id n) (minipoolIds n) (totalFinalizedMinipools n) (withdrawableMinipools n)
     (effectiveRPLStaked n) v (maximumEffectiveRPL n)
     (averageFeeForActiveMinipools n).

Definition set_maximumEffectiveRPL (v : Z) (n : t) : t :=
  mk (id n) (minipoolIds n) (totalFinalizedMinipools n) (withdrawableMinipools n)
     (effectiveRPLStaked n) (minimumEffectiveRPL n) v
     (averageFeeForActiveMinipools n).

Definition set_averageFeeForActiveMinipools (v : Z) (n : t) : t :=
  mk (id n) (minipoolIds n) (totalFinalizedMinipools n) (withdrawableMinipools n)
     (effectiveRPLStaked n) (minimumEffectiveRPL n) (maximumEffectiveRPL n) v.
End Node.

(** ** Events and calls (generated bindings) *)

Record Block : Type := { timestamp : Z }.

Module MinipoolCreated.
Record params_t : Type := { node : option string; minipool : option string }.
Record t : Type := { params : option params_t }.
End MinipoolCreated.

Module MinipoolDestroyed.
Record params_t : Type := { node : option string; minipool : option string }.
Record t : Type := { params : option params_t; block : option Block }.
End MinipoolDestroyed.

Module IncrementNodeFinalisedMinipoolCountCall.
Record t : Type := { block : option Block; from : option string }.
End IncrementNodeFinalisedMinipoolCountCall.

(** ** Contract reads *)

(** The result of a call into a contract at the chain head. *)
Inductive call (A : Type) : Type :=
| Returns (a : A)
| Reverts.
Arguments Returns {A} a.
Arguments Reverts {A}.

Definition call_bind {A B : Type} (c : call A) (k : A -> call B) : call B :=
  match c with
  | Returns a => k a
  | Reverts => Reverts
  end.

Notation "x <-- c ;>> k" := (call_bind c (fun x => k))
  (at level 62, c at next level, right associativity, only parsing).

Record rocketNetworkFees : Type := {
  getNodeFee : call Z
}.

Record rocketNodeStaking : Type := {
  getNodeEffectiveRPLStake : string -> call Z;
  getNodeMinimumRPLStake : string -> call Z;
  getNodeMaximumRPLStake : string -> call Z
}.

(** The chain as a handler invocation sees it: what [bind] gives at the two
    configured contract addresses ([None] for a null binding). *)
Record Chain : Type := {
  bind_rocketNetworkFees : option rocketNetworkFees;
  bind_rocketNodeStaking : option rocketNodeStaking
}.

(** ** The entity store and the data-source templates *)

Record Store : Type := mkStore {
  minipools : gmap string Minipool.t;
  nodes : gmap string Node.t;
  templates : list string
}.

(** ** Handler monad: store passing, early [return], abort on revert *)

Inductive Step (A : Type) : Type :=
| Next (a : A) (st : Store)
| Return (st : Store)
| Abort (st : Store).
Arguments Next {A} a st.
Arguments Return {A} st.
Arguments Abort {A} st.

Definition M (A : Type) : Type := Store -> Step A.

Definition ret {A : Type} (a : A) : M A := fun st => Next a st.

Definition bind {A B : Type} (m : M A) (k : A -> M B) : M B :=
  fun st =>
    match m st with
    | Next a st' => k a st'
    | Return st' => Return st'
    | Abort st' => Abort st'
    end.

Notation "x <~ m ;> k" := (bind m (fun x => k))
  (at level 62, m at next level, right associativity, only parsing).
Notation "m ;> k" := (bind m (fun _ => k))
  (at level 62, right associativity, only parsing).

(** [if (x === null) return;] *)
Definition nonnull {A : Type} (o : option A) : M A :=
  fun st => match o with Some a => Next a st | None => Return st end.

(** [if (x !== null) return;] *)
Definition isnull {A : Type} (o : option A) : M unit :=
  fun st => match o with Some _ => Return st | None => Next tt st end.

(** A contract read issued by the handler. *)
Definition perform {A : Type} (c : call A) : M A :=
  fun st => match c with Returns a => Next a st | Reverts => Abort st end.

Definition reads {A : Type} (f : Store -> A) : M A := fun st => Next (f st) st.

Definition Minipool_load (id : string) : M (option Minipool.t) :=
  reads (fun st => minipools st !! id).

Definition Node_load (id : string) : M (option Node.t) :=
  reads (fun st => nodes st !! id).

Definition Minipool_save (m : Minipool.t) : M unit :=
  fun st => Next tt (mkStore (<[Minipool.id m := m]> (minipools st)) (nodes st) (templates st)).

Definition Node_save (n : Node.t) : M unit :=
  fun st => Next tt (mkStore (minipools st) (<[Node.id n := n]> (nodes st)) (templates st)).

(** [rocketMinipoolDelegate.create(address)] *)
Definition rocketMinipoolDelegate_create (address : string) : M unit :=
  fun st => Next tt (mkStore (minipools st) (nodes st) (templates st ++ [address])).

(** What a handler invocation leaves behind. *)
Inductive Outcome : Type :=
| Completed (st : Store)
| Aborted (st : Store).

Definition run (m : M unit) (st : Store) : Outcome :=
  match m st with
  | Next _ st' => Completed st'
  | Return st' => Completed st'
  | Abort st' => Aborted st'
  end.

Definition store_of (o : Outcome) : Store :=
  match o with Completed st => st | Aborted st => st end.

(** ** Helpers of the mapping *)

(** Modelled from the spec: [rocketPoolEntityFactory.createMinipool] lives in
    [src/entityfactory], which is not among the sources. The specification
    (4.2, step 2) has it create the Minipool entity with the given id, the
    owner link, the fee, and zero sentinels for destroyed and finalized. *)
Definition createMinipool (id : string) (node : Node.t) (fee : Z) : option Minipool.t :=
  Some (Minipool.mk id (Some (Node.id node)) fee 0 0).

Definition getNewMinipoolFee (chain : Chain) : call Z :=
  match bind_rocketNetworkFees chain with
  | None => Returns 0
  | Some networkFeesContract => getNodeFee networkFeesContract
  end.

Definition setEffectiveRPLStaked (chain : Chain) (node : Node.t) : call Node.t :=
  match bind_rocketNodeStaking chain with
  | None => Returns node
  | Some rocketNodeStakingContract =>
    let nodeAddress := Node.id node in
    v <-- getNodeEffectiveRPLStake rocketNodeStakingContract nodeAddress ;>>
    let node := Node.set_effectiveRPLStaked v node in
    v <-- getNodeMinimumRPLStake rocketNodeStakingContract nodeAddress ;>>
    let node := Node.set_minimumEffectiveRPL v node in
    v <-- getNodeMaximumRPLStake rocketNodeStakingContract nodeAddress ;>>
    let node := Node.set_maximumEffectiveRPL v node in
    Returns node
  end.

(** One iteration of the loop over the ids; the accumulator is
    [(totalMinipoolFeeForActiveMinipools, totalActiveMinipools)]. *)
Definition averageFee_body (ms : gmap string Minipool.t)
    (acc : Z * Z) (minipoolId : option string) : Z * Z :=
  match minipoolId with
  | None => acc
  | Some minipoolId =>
    match ms !! minipoolId with
    | None => acc
    | Some minipool =>
      if negb (Minipool.finalizedBlockTime minipool =? 0)
         || negb (Minipool.destroyedBlockTime minipool =? 0)
      then acc
      else (fst acc + Minipool.fee minipool, snd acc + 1)
    end
  end.

Definition getAverageFeeForActiveMinipools (ms : gmap string Minipool.t)
    (minipoolIds : option (list (option string))) : Z :=
  match minipoolIds with
  | None => 0
  | Some minipoolIds =>
    if (length minipoolIds =? 0)%nat then 0
    else
      let acc := fold_left (averageFee_body ms) minipoolIds (0, 0) in
      let totalMinipoolFeeForActiveMinipools := fst acc in
      let totalActiveMinipools := snd acc in
      if (0 <? totalActiveMinipools) && (0 <? totalMinipoolFeeForActiveMinipools)
      then totalMinipoolFeeForActiveMinipools ÷ totalActiveMinipools
      else 0
  end.

(** [nodeMinipools.indexOf(id) == -1] *)
Definition notIndexed (id : string) (l : list (option string)) : bool :=
  negb (bool_decide (Some id ∈ l)).

(** ** The handlers *)

Definition handleMinipoolCreated (chain : Chain)
    (event : option MinipoolCreated.t) : M unit :=
  event <~ nonnull event ;>
  params <~ nonnull (MinipoolCreated.params event) ;>
  eventNode <~ nonnull (MinipoolCreated.node params) ;>
  eventMinipool <~ nonnull (MinipoolCreated.minipool params) ;>
  minipool <~ Minipool_load eventMinipool ;>
  isnull minipool ;>
  node <~ Node_load eventNode ;>
  node <~ nonnull node ;>
  fee <~ perform (getNewMinipoolFee chain) ;>
  minipool <~ nonnull (createMinipool eventMinipool node fee) ;>
  let nodeMinipools :=
    match Node.minipoolIds node with
    | None => [Some (Minipool.id minipool)]
    | Some l => l
    end in
  let nodeMinipools :=
    if notIndexed (Minipool.id minipool) nodeMinipools
    then nodeMinipools ++ [Some (Minipool.id minipool)]
    else nodeMinipools in
  let node := Node.set_minipoolIds (Some nodeMinipools) node in
  Minipool_save minipool ;>
  node <~ perform (setEffectiveRPLStaked chain node) ;>
  average <~ reads (fun st => getAverageFeeForActiveMinipools (minipools st) (Some nodeMinipools)) ;>
  let node := Node.set_averageFeeForActiveMinipools average node in
  Node_save node ;>
  rocketMinipoolDelegate_create (Minipool.id minipool).

Definition handleMinipoolDestroyed (chain : Chain)
    (event : option MinipoolDestroyed.t) : M unit :=
  event <~ nonnull event ;>
  params <~ nonnull (MinipoolDestroyed.params event) ;>
  eventNode <~ nonnull (MinipoolDestroyed.node params) ;>
  eventMinipool <~ nonnull (MinipoolDestroyed.minipool params) ;>
  block <~ nonnull (MinipoolDestroyed.block event) ;>
  minipool <~ Minipool_load eventMinipool ;>
  minipool <~ nonnull minipool ;>
  node <~ Node_load eventNode ;>
  node <~ nonnull node ;>
  let minipoolIds := Node.minipoolIds node in
  let minipool := Minipool.set_destroyedBlockTime (timestamp block) minipool in
  Minipool_save minipool ;>
  node <~ perform (setEffectiveRPLStaked chain node) ;>
  node <~ match minipoolIds with
          | Some _ =>
            average <~ reads (fun st => getAverageFeeForActiveMinipools (minipools st) minipoolIds) ;>
            ret (Node.set_averageFeeForActiveMinipools average node)
          | None => ret node
          end ;>
  Node_save node.

Definition handleIncrementNodeFinalisedMinipoolCount (chain : Chain)
    (call : option IncrementNodeFinalisedMinipoolCountCall.t) : M unit :=
  call <~ nonnull call ;>
  block <~ nonnull (IncrementNodeFinalisedMinipoolCountCall.block call) ;>
  from <~ nonnull (IncrementNodeFinalisedMinipoolCountCall.from call) ;>
  minipool <~ Minipool_load from ;>
  minipool <~ nonnull minipool ;>
  minipoolNode <~ nonnull (Minipool.node minipool) ;>
  node <~ Node_load minipoolNode ;>
  node <~ nonnull node ;>
  let minipoolIds := Node.minipoolIds node in
  let minipool := Minipool.set_finalizedBlockTime (timestamp block) minipool in
  Minipool_save minipool ;>
  let node := Node.set_totalFinalizedMinipools (Node.totalFinalizedMinipools node + 1) node in
  let node := Node.set_withdrawableMinipools (Node.totalFinalizedMinipools node - 1) node in
  let node :=
    if Node.withdrawableMinipools node <? 0
    then Node.set_withdrawableMinipools 0 node
    else node in
  node <~ perform (setEffectiveRPLStaked chain node) ;>
  node <~ match minipoolIds with
          | Some _ =>
            average <~ reads (fun st => getAverageFeeForActiveMinipools (minipools st) minipoolIds) ;>
            ret (Node.set_averageFeeForActiveMinipools average node)
          | None => ret node
          end ;>
  Node_save node.

(** ** The event router and the stores a run can reach *)

Inductive Invocation : Type :=
| OnMinipoolCreated (chain : Chain) (event : option MinipoolCreated.t)
| OnMinipoolDestroyed (chain : Chain) (event : option MinipoolDestroyed.t)
| OnIncrementNodeFinalisedMinipoolCount (chain : Chain)
    (call : option IncrementNodeFinalisedMinipoolCountCall.t).

Definition dispatch (i : Invocation) (st : Store) : Outcome :=
  match i with
  | OnMinipoolCreated chain event => run (handleMinipoolCreated chain event) st
  | OnMinipoolDestroyed chain event => run (handleMinipoolDestroyed chain event) st
  | OnIncrementNodeFinalisedMinipoolCount chain call =>
    run (handleIncrementNodeFinalisedMinipoolCount chain call) st
  end.

(** [reachable st st']: some sequence of handler invocations leads from [st]
    to [st'], each starting from the store its predecessor left, whether that
    one completed or was aborted. *)
Inductive reachable (st : Store) : Store -> Prop :=
| reachable_refl : reachable st st
| reachable_step st' i :
    reachable st st' -> reachable st (store_of (dispatch i st')).

(** ** The specification's reading of the average *)

(** "Active" means [destroyedBlockTime == 0 AND finalizedBlockTime == 0]. *)
Definition spec_active (m : Minipool.t) : bool :=
  (Minipool.finalizedBlockTime m =? 0) && (Minipool.destroyedBlockTime m =? 0).

(** The fee an id contributes: that of its minipool when it loads and is active. *)
Definition spec_activeFee (ms : gmap string Minipool.t) (minipoolId : option string) : option Z :=
  match minipoolId with
  | None => None
  | Some i =>
    match ms !! i with
    | Some m => if spec_active m then Some (Minipool.fee m) else None
    | None => None
    end
  end.

Definition spec_activeFees (ms : gmap string Minipool.t)
    (minipoolIds : list (option string)) : list Z :=
  omap (spec_activeFee ms) minipoolIds.

Definition sumZ (l : list Z) : Z := foldr Z.add 0 l.

(** sum / count, truncating, when count > 0 and sum > 0; otherwise 0. *)
Definition spec_average (fees : list Z) : Z :=
  let count := Z.of_nat (length fees) in
  let sum := sumZ fees in
  if (0 <? count) && (0 <? sum) then sum ÷ count else 0.

(** ** What an invocation that passes its guards leaves behind

    The three definitions below name the outcome of each handler once its
    null checks and entity lookups have succeeded; the lemmas [*_run] prove
    that the handlers compute exactly these. *)

(** Lines 43-45: the id list of the node after the new id was added. *)
Definition withMinipoolId (a : string) (ids : option (list (option string)))
    : list (option string) :=
  let l := match ids with None => [Some a] | Some l => l end in
  if notIndexed a l then l ++ [Some a] else l.

Definition created_outcome (chain : Chain) (a : string) (nd : Node.t) (st : Store) : Outcome :=
  match getNewMinipoolFee chain with
  | Reverts => Aborted st
  | Returns fee =>
    let ids := withMinipoolId a (Node.minipoolIds nd) in
    let ms := <[a := Minipool.mk a (Some (Node.id nd)) fee 0 0]> (minipools st) in
    match setEffectiveRPLStaked chain (Node.set_minipoolIds (Some ids) nd) with
    | Reverts => Aborted (mkStore ms (nodes st) (templates st))
    | Returns nd2 =>
      Completed (mkStore ms
        (<[Node.id nd2 :=
             Node.set_averageFeeForActiveMinipools
               (getAverageFeeForActiveMinipools ms (Some ids)) nd2]> (nodes st))
        (templates st ++ [a]))
    end
  end.

(** The node after the average was recomputed over the captured ids, when
    these are not null. *)
Definition withAverage (ms : gmap string Minipool.t)
    (ids : option (list (option string))) (nd : Node.t) : Node.t :=
  match ids with
  | Some _ => Node.set_averageFeeForActiveMinipools (getAverageFeeForActiveMinipools ms ids) nd
  | None => nd
  end.

Definition destroyed_outcome (chain : Chain) (b : Block) (m : Minipool.t)
    (nd : Node.t) (st : Store) : Outcome :=
  let ms := <[Minipool.id m := Minipool.set_destroyedBlockTime (timestamp b) m]> (minipools st) in
  match setEffectiveRPLStaked chain nd with
  | Reverts => Aborted (mkStore ms (nodes st) (templates st))
  | Returns nd2 =>
    Completed (mkStore ms
      (<[Node.id nd2 := withAverage ms (Node.minipoolIds nd) nd2]> (nodes st))
      (templates st))
  end.

(** Lines 123-127: the counters of the node after a finalization. *)
Definition finalisedCounters (nd : Node.t) : Node.t :=
  let nd := Node.set_totalFinalizedMinipools (Node.totalFinalizedMinipools nd + 1) nd in
  let nd := Node.set_withdrawableMinipools (Node.totalFinalizedMinipools nd - 1) nd in
  if Node.withdrawableMinipools nd <? 0 then Node.set_withdrawableMinipools 0 nd else nd.

Definition finalised_outcome (chain : Chain) (b : Block) (m : Minipool.t)
    (nd : Node.t) (st : Store) : Outcome :=
  let ms := <[Minipool.id m := Minipool.set_finalizedBlockTime (timestamp b) m]> (minipools st) in
  match setEffectiveRPLStaked chain (finalisedCounters nd) with
  | Reverts => Aborted (mkStore ms (nodes st) (templates st))
  | Returns nd2 =>
    Completed (mkStore ms
      (<[Node.id nd2 := withAverage ms (Node.minipoolIds nd) nd2]> (nodes st))
      (templates st))
  end.

(** ** Failing reads *)

(** The network-fee read of the creation handler reverts. *)
Definition fee_read_fails (chain : Chain) : Prop :=
  exists c, bind_rocketNetworkFees chain = Some c /\ getNodeFee c = Reverts.

(** One of the three stake reads for the node at [address] reverts. *)
Definition stake_read_fails (chain : Chain) (address : string) : Prop :=
  exists c, bind_rocketNodeStaking chain = Some c /\
    (getNodeEffectiveRPLStake c address = Reverts \/
     getNodeMinimumRPLStake c address = Reverts \/
     getNodeMaximumRPLStake c address = Reverts).

(** [read_failure i st st']: invocation [i] started on store [st] passes its
    guards and issues a contract read that reverts; [st'] is the store with
    the writes that precede that read in the handler. *)
Inductive read_failure : Invocation -> Store -> Store -> Prop :=
| fee_failure_on_creation chain ev p n a nd st :
    MinipoolCreated.params ev = Some p ->
    MinipoolCreated.node p = Some n ->
    MinipoolCreated.minipool p = Some a ->
    minipools st !! a = None ->
    nodes st !! n = Some nd ->
    fee_read_fails chain ->
    read_failure (OnMinipoolCreated chain (Some ev)) st st
| stake_failure_on_creation chain ev p n a nd c fee st :
    MinipoolCreated.params ev = Some p ->
    MinipoolCreated.node p = Some n ->
    MinipoolCreated.minipool p = Some a ->
    minipools st !! a = None ->
    nodes st !! n = Some nd ->
    bind_rocketNetworkFees chain = Some c ->
    getNodeFee c = Returns fee ->
    stake_read_fails chain (Node.id nd) ->
    read_failure (OnMinipoolCreated chain (Some ev)) st
      (mkStore (<[a := Minipool.mk a (Some (Node.id nd)) fee 0 0]> (minipools st))
               (nodes st) (templates st))
| stake_failure_on_destruction chain ev p n a b m nd st :
    MinipoolDestroyed.params ev = Some p ->
    MinipoolDestroyed.node p = Some n ->
    MinipoolDestroyed.minipool p = Some a ->
    MinipoolDestroyed.block ev = Some b ->
    minipools st !! a = Some m ->
    nodes st !! n = Some nd ->
    stake_read_fails chain (Node.id nd) ->
    read_failure (OnMinipoolDestroyed chain (Some ev)) st
      (mkStore (<[Minipool.id m := Minipool.set_destroyedBlockTime (timestamp b) m]>
                  (minipools st))
               (nodes st) (templates st))
| stake_failure_on_finalisation chain c b a m n nd st :
    IncrementNodeFinalisedMinipoolCountCall.block c = Some b ->
    IncrementNodeFinalisedMinipoolCountCall.from c = Some a ->
    minipools st !! a = Some m ->
    Minipool.node m = Some n ->
    nodes st !! n = Some nd ->
    stake_read_fails chain (Node.id nd) ->
    read_failure (OnIncrementNodeFinalisedMinipoolCount chain (Some c)) st
      (mkStore (<[Minipool.id m := Minipool.set_finalizedBlockTime (timestamp b) m]>
                  (minipools st))
               (nodes st) (templates st)).

(** ** Membership count and repeated refreshes *)

(** How many entries of an id list are the id [a]. *)
Definition occurrences (a : string) (l : list (option string)) : nat :=
  length (filter (fun x => x = Some a) l).

(** The stake refresh run once per chain state, in order, on the same node. *)
Fixpoint refreshes (chains : list Chain) (node : Node.t) : call Node.t :=
  match chains with
  | [] => Returns node
  | chain :: chains =>
    node <-- setEffectiveRPLStaked chain node ;>> refreshes chains node
  end.

(** ** Sample data *)

Definition ex_staking : rocketNodeStaking :=
  {| getNodeEffectiveRPLStake := fun _ => Returns 100;
     getNodeMinimumRPLStake := fun _ => Returns 50;
     getNodeMaximumRPLStake := fun _ => Returns 150 |}.

Definition ex_staking_later : rocketNodeStaking :=
  {| getNodeEffectiveRPLStake := fun _ => Returns 70;
     getNodeMinimumRPLStake := fun _ => Returns 40;
     getNodeMaximumRPLStake := fun _ => Returns 90 |}.

Definition ex_staking_reverting : rocketNodeStaking :=
  {| getNodeEffectiveRPLStake := fun _ => Returns 100;
     getNodeMinimumRPLStake := fun _ => Reverts;
     getNodeMaximumRPLStake := fun _ => Returns 150 |}.

Definition ex_chain : Chain :=
  {| bind_rocketNetworkFees := Some {| getNodeFee := Returns 15 |};
     bind_rocketNodeStaking := Some ex_staking |}.

Definition ex_chain_later : Chain :=
  {| bind_rocketNetworkFees := Some {| getNodeFee := Returns 20 |};
     bind_rocketNodeStaking := Some ex_staking_later |}.

Definition ex_chain_fee_reverting : Chain :=
  {| bind_rocketNetworkFees := Some {| getNodeFee := Reverts |};
     bind_rocketNodeStaking := Some ex_staking |}.

Definition ex_chain_stake_reverting : Chain :=
  {| bind_rocketNetworkFees := Some {| getNodeFee := Returns 15 |};
     bind_rocketNodeStaking := Some ex_staking_reverting |}.

Definition ex_node : Node.t := Node.mk "0xn" (Some []) 0 0 0 0 0 0.

(** A store with one node and no minipool. *)
Definition ex_store : Store := mkStore ∅ {[ "0xn" := ex_node ]} [].

(** A store with no node at all. *)
Definition ex_store_empty : Store := mkStore ∅ ∅ [].

Definition ex_created : MinipoolCreated.t :=
  {| MinipoolCreated.params :=
       Some {| MinipoolCreated.node := Some "0xn";
               MinipoolCreated.minipool := Some "0xm" |} |}.

Definition ex_minipool (a : string) (fee : Z) : Minipool.t :=
  Minipool.mk a (Some "0xn") fee 0 0.

(** A node with three active minipools of fees 10, 20 and 30. *)
Definition ex_node3 : Node.t :=
  Node.mk "0xn" (Some [Some "0xa"; Some "0xb"; Some "0xc"]) 0 0 100 50 150 20.

Definition ex_minipools3 : gmap string Minipool.t :=
  <["0xa" := ex_minipool "0xa" 10]>
    (<["0xb" := ex_minipool "0xb" 20]>
       (<["0xc" := ex_minipool "0xc" 30]> ∅)).

Definition ex_store3 : Store :=
  mkStore ex_minipools3 {[ "0xn" := ex_node3 ]} ["0xa"; "0xb"; "0xc"].

Definition ex_destroyed : MinipoolDestroyed.t :=
  {| MinipoolDestroyed.params :=
       Some {| MinipoolDestroyed.node := Some "0xn";
               MinipoolDestroyed.minipool := Some "0xc" |};
     MinipoolDestroyed.block := Some {| timestamp := 1000 |} |}.

Definition ex_finalised : IncrementNodeFinalisedMinipoolCountCall.t :=
  {| IncrementNodeFinalisedMinipoolCountCall.block := Some {| timestamp := 2000 |};
     IncrementNodeFinalisedMinipoolCountCall.from := Some "0xc" |}.

(** ** Chains that answer, and how a stored node may change *)

Definition chain_of (i : Invocation) : Chain :=
  match i with
  | OnMinipoolCreated chain _ => chain
  | OnMinipoolDestroyed chain _ => chain
  | OnIncrementNodeFinalisedMinipoolCount chain _ => chain
  end.

(** No read of the chain reverts: the network-fee read returns, and so do
    the three stake reads at every address. *)
Definition chain_answers (chain : Chain) : Prop :=
  (forall c, bind_rocketNetworkFees chain = Some c -> exists fee, getNodeFee c = Returns fee) /\
  (forall c address, bind_rocketNodeStaking chain = Some c ->
     exists e mn mx,
       getNodeEffectiveRPLStake c address = Returns e /\
       getNodeMinimumRPLStake c address = Returns mn /\
       getNodeMaximumRPLStake c address = Returns mx).

(** [node_evolves nd nd']: [nd'] has the id of [nd]; its id list is that of
    [nd], possibly with one id added by lines 43-45; its counters are those
    of [nd], or those lines 123-127 give. *)
Definition node_evolves (nd nd' : Node.t) : Prop :=
  Node.id nd' = Node.id nd /\
  (Node.minipoolIds nd' = Node.minipoolIds nd \/
   exists a, Node.minipoolIds nd' = Some (withMinipoolId a (Node.minipoolIds nd))) /\
  ((Node.totalFinalizedMinipools nd' = Node.totalFinalizedMinipools nd /\
    Node.withdrawableMinipools nd' = Node.withdrawableMinipools nd) \/
   (Node.totalFinalizedMinipools nd' = Node.totalFinalizedMinipools nd + 1 /\
    Node.withdrawableMinipools nd' = Z.max 0 (Node.totalFinalizedMinipools nd' - 1))).

(** The id list of a node, empty when null. *)
Definition idsOf (nd : Node.t) : list (option string) :=
  default [] (Node.minipoolIds nd).

(** ** Invocations whose required fields are all present *)

(** What the preliminary null checks of each handler let through. *)
Definition wellformed (i : Invocation) : Prop :=
  match i with
  | OnMinipoolCreated _ event =>
    exists ev p n a, event = Some ev /\ MinipoolCreated.params ev = Some p /\
      MinipoolCreated.node p = Some n /\ MinipoolCreated.minipool p = Some a
  | OnMinipoolDestroyed _ event =>
    exists ev p n a b, event = Some ev /\ MinipoolDestroyed.params ev = Some p /\
      MinipoolDestroyed.node p = Some n /\ MinipoolDestroyed.minipool p = Some a /\
      MinipoolDestroyed.block ev = Some b
  | OnIncrementNodeFinalisedMinipoolCount _ call =>
    exists c b a, call = Some c /\
      IncrementNodeFinalisedMinipoolCountCall.block c = Some b /\
      IncrementNodeFinalisedMinipoolCountCall.from c = Some a
  end.

(** ** Kinds of invocation *)

Definition is_creation (i : Invocation) : bool :=
  match i with OnMinipoolCreated _ _ => true | _ => false end.

Definition is_finalisation (i : Invocation) : bool :=
  match i with OnIncrementNodeFinalisedMinipoolCount _ _ => true | _ => false end.

(** ** Stores well-formedness: every entity sits under its own id *)

Definition minipools_wf (ms : gmap string Minipool.t) : Prop :=
  map_Forall (fun k m => Minipool.id m = k) ms.

Definition nodes_wf (ns : gmap string Node.t) : Prop :=
  map_Forall (fun k n => Node.id n = k) ns.

(** * Properties *)

(** ** The average over the active minipools *)

Lemma averageFee_body_spec ms acc minipoolId :
  averageFee_body ms acc minipoolId =
  match spec_activeFee ms minipoolId with
  | Some f => (fst acc + f, snd acc + 1)
  | None => acc
  end.
Proof.
  unfold averageFee_body, spec_activeFee, spec_active.
  destruct minipoolId as [i|]; [|reflexivity].
  destruct (ms !! i) as [m|]; [|reflexivity].
  destruct (Minipool.finalizedBlockTime m =? 0), (Minipool.destroyedBlockTime m =? 0);
    reflexivity.
Qed.

Lemma averageFee_loop ms ids : forall acc,
  fold_left (averageFee_body ms) ids acc =
  (fst acc + sumZ (spec_activeFees ms ids),
   snd acc + Z.of_nat (length (spec_activeFees ms ids))).
Proof.
  induction ids as [|i ids IH]; intros [f c]; simpl.
  - f_equal; lia.
  - rewrite IH, averageFee_body_spec. unfold spec_activeFees. simpl.
    destruct (spec_activeFee ms i) as [x|]; simpl; f_equal; lia.
Qed.

Lemma average_refines (ms : gmap string Minipool.t)
    (minipoolIds : option (list (option string))) :
  getAverageFeeForActiveMinipools ms minipoolIds =
  spec_average (spec_activeFees ms (default [] minipoolIds)).
Proof.
  destruct minipoolIds as [ids|]; simpl; [|reflexivity].
  destruct ids as [|i ids]; [reflexivity|].
  change (length (i :: ids) =? 0)%nat with false. cbv iota.
  rewrite averageFee_loop. unfold spec_average. simpl fst. simpl snd.
  rewrite !Z.add_0_l. reflexivity.
Qed.

(** C1. For every (possibly null) list of minipool ids,
    [getAverageFeeForActiveMinipools] returns the truncating quotient of the
    sum of the fees by their number, both taken over the ids whose minipool
    loads with [finalizedBlockTime = 0] and [destroyedBlockTime = 0], when
    that number and that sum are positive, and 0 in every other case (a null
    or empty list, no active minipool, a sum that is not positive). *)
Theorem getAverageFeeForActiveMinipools_spec
    (ms : gmap string Minipool.t) (minipoolIds : option (list (option string))) :
  getAverageFeeForActiveMinipools ms minipoolIds =
  spec_average (spec_activeFees ms (default [] minipoolIds)).
Proof. apply average_refines. Qed.

(** ** Running the handlers *)

Ltac run_handler :=
  unfold run, bind, nonnull, isnull, perform, reads, ret,
    Minipool_load, Node_load, Minipool_save, Node_save,
    rocketMinipoolDelegate_create; simpl.

Lemma handleMinipoolCreated_run chain ev p n a nd st :
  MinipoolCreated.params ev = Some p ->
  MinipoolCreated.node p = Some n ->
  MinipoolCreated.minipool p = Some a ->
  minipools st !! a = None ->
  nodes st !! n = Some nd ->
  run (handleMinipoolCreated chain (Some ev)) st = created_outcome chain a nd st.
Proof.
  intros Hp Hn Ha Hm Hnd. unfold handleMinipoolCreated, created_outcome.
  run_handler. rewrite Hp, Hn, Ha, Hm, Hnd.
  destruct (getNewMinipoolFee chain) as [fee|]; [|reflexivity].
  simpl. unfold withMinipoolId.
  destruct (setEffectiveRPLStaked chain _) as [nd2|]; reflexivity.
Qed.

Lemma handleMinipoolCreated_cases chain event st :
  run (handleMinipoolCreated chain event) st = Completed st \/
  exists ev p n a nd,
    event = Some ev /\ MinipoolCreated.params ev = Some p /\
    MinipoolCreated.node p = Some n /\ MinipoolCreated.minipool p = Some a /\
    minipools st !! a = None /\ nodes st !! n = Some nd /\
    run (handleMinipoolCreated chain event) st = created_outcome chain a nd st.
Proof.
  destruct event as [ev|]; [|left; reflexivity].
  destruct (MinipoolCreated.params ev) as [p|] eqn:Hp;
    [|left; unfold handleMinipoolCreated; run_handler; rewrite Hp; reflexivity].
  destruct (MinipoolCreated.node p) as [n|] eqn:Hn;
    [|left; unfold handleMinipoolCreated; run_handler; rewrite Hp, Hn; reflexivity].
  destruct (MinipoolCreated.minipool p) as [a|] eqn:Ha;
    [|left; unfold handleMinipoolCreated; run_handler; rewrite Hp, Hn, Ha; reflexivity].
  destruct (minipools st !! a) as [m|] eqn:Hm;
    [left; unfold handleMinipoolCreated; run_handler; rewrite Hp, Hn, Ha, Hm; reflexivity|].
  destruct (nodes st !! n) as [nd|] eqn:Hnd;
    [|left; unfold handleMinipoolCreated; run_handler; rewrite Hp, Hn, Ha, Hm, Hnd; reflexivity].
  right. exists ev, p, n, a, nd. repeat split; try assumption.
  eapply handleMinipoolCreated_run; eassumption.
Qed.

Lemma handleMinipoolDestroyed_run chain ev p n a b m nd st :
  MinipoolDestroyed.params ev = Some p ->
  MinipoolDestroyed.node p = Some n ->
  MinipoolDestroyed.minipool p = Some a ->
  MinipoolDestroyed.block ev = Some b ->
  minipools st !! a = Some m ->
  nodes st !! n = Some nd ->
  run (handleMinipoolDestroyed chain (Some ev)) st = destroyed_outcome chain b m nd st.
Proof.
  intros Hp Hn Ha Hb Hm Hnd. unfold handleMinipoolDestroyed, destroyed_outcome.
  run_handler. rewrite Hp, Hn, Ha, Hb, Hm, Hnd.
  destruct (setEffectiveRPLStaked chain nd) as [nd2|]; [|reflexivity].
  unfold withAverage. destruct (Node.minipoolIds nd); reflexivity.
Qed.

Lemma handleMinipoolDestroyed_cases chain event st :
  run (handleMinipoolDestroyed chain event) st = Completed st \/
  exists ev p n a b m nd,
    event = Some ev /\ MinipoolDestroyed.params ev = Some p /\
    MinipoolDestroyed.node p = Some n /\ MinipoolDestroyed.minipool p = Some a /\
    MinipoolDestroyed.block ev = Some b /\
    minipools st !! a = Some m /\ nodes st !! n = Some nd /\
    run (handleMinipoolDestroyed chain event) st = destroyed_outcome chain b m nd st.
Proof.
  destruct event as [ev|]; [|left; reflexivity].
  destruct (MinipoolDestroyed.params ev) as [p|] eqn:Hp;
    [|left; unfold handleMinipoolDestroyed; run_handler; rewrite Hp; reflexivity].
  destruct (MinipoolDestroyed.node p) as [n|] eqn:Hn;
    [|left; unfold handleMinipoolDestroyed; run_handler; rewrite Hp, Hn; reflexivity].
  destruct (MinipoolDestroyed.minipool p) as [a|] eqn:Ha;
    [|left; unfold handleMinipoolDestroyed; run_handler; rewrite Hp, Hn, Ha; reflexivity].
  destruct (MinipoolDestroyed.block ev) as [b|] eqn:Hb;
    [|left; unfold handleMinipoolDestroyed; run_handler; rewrite Hp, Hn, Ha, Hb; reflexivity].
  destruct (minipools st !! a) as [m|] eqn:Hm;
    [|left; unfold handleMinipoolDestroyed; run_handler;
      rewrite Hp, Hn, Ha, Hb, Hm; reflexivity].
  destruct (nodes st !! n) as [nd|] eqn:Hnd;
    [|left; unfold handleMinipoolDestroyed; run_handler;
      rewrite Hp, Hn, Ha, Hb, Hm, Hnd; reflexivity].
  right. exists ev, p, n, a, b, m, nd. repeat split; try assumption.
  eapply handleMinipoolDestroyed_run; eassumption.
Qed.

Lemma handleIncrementNodeFinalisedMinipoolCount_run chain c b a m n nd st :
  IncrementNodeFinalisedMinipoolCountCall.block c = Some b ->
  IncrementNodeFinalisedMinipoolCountCall.from c = Some a ->
  minipools st !! a = Some m ->
  Minipool.node m = Some n ->
  nodes st !! n = Some nd ->
  run (handleIncrementNodeFinalisedMinipoolCount chain (Some c)) st =
  finalised_outcome chain b m nd st.
Proof.
  intros Hb Ha Hm Hn Hnd.
  unfold handleIncrementNodeFinalisedMinipoolCount, finalised_outcome, finalisedCounters.
  run_handler. rewrite Hb, Ha, Hm, Hn, Hnd. simpl.
  destruct (setEffectiveRPLStaked chain _) as [nd2|]; [|reflexivity].
  unfold withAverage. destruct (Node.minipoolIds nd); reflexivity.
Qed.

Lemma handleIncrementNodeFinalisedMinipoolCount_cases chain call st :
  run (handleIncrementNodeFinalisedMinipoolCount chain call) st = Completed st \/
  exists c b a m n nd,
    call = Some c /\
    IncrementNodeFinalisedMinipoolCountCall.block c = Some b /\
    IncrementNodeFinalisedMinipoolCountCall.from c = Some a /\
    minipools st !! a = Some m /\ Minipool.node m = Some n /\
    nodes st !! n = Some nd /\
    run (handleIncrementNodeFinalisedMinipoolCount chain call) st =
    finalised_outcome chain b m nd st.
Proof.
  destruct call as [c|]; [|left; reflexivity].
  destruct (IncrementNodeFinalisedMinipoolCountCall.block c) as [b|] eqn:Hb;
    [|left; unfold handleIncrementNodeFinalisedMinipoolCount; run_handler;
      rewrite Hb; reflexivity].
  destruct (IncrementNodeFinalisedMinipoolCountCall.from c) as [a|] eqn:Ha;
    [|left; unfold handleIncrementNodeFinalisedMinipoolCount; run_handler;
      rewrite Hb, Ha; reflexivity].
  destruct (minipools st !! a) as [m|] eqn:Hm;
    [|left; unfold handleIncrementNodeFinalisedMinipoolCount; run_handler;
      rewrite Hb, Ha, Hm; reflexivity].
  destruct (Minipool.node m) as [n|] eqn:Hn;
    [|left; unfold handleIncrementNodeFinalisedMinipoolCount; run_handler;
      rewrite Hb, Ha, Hm; simpl; rewrite Hn; reflexivity].
  destruct (nodes st !! n) as [nd|] eqn:Hnd;
    [|left; unfold handleIncrementNodeFinalisedMinipoolCount; run_handler;
      rewrite Hb, Ha, Hm; simpl; rewrite Hn; simpl; rewrite Hnd; reflexivity].
  right. exists c, b, a, m, n, nd. repeat split; try assumption.
  eapply handleIncrementNodeFinalisedMinipoolCount_run; eassumption.
Qed.

(** Fees 10, 10, 11 average to 10: the division truncates. *)
Example average_truncates :
  getAverageFeeForActiveMinipools
    (<["0xa" := ex_minipool "0xa" 10]>
       (<["0xb" := ex_minipool "0xb" 10]>
          (<["0xc" := ex_minipool "0xc" 11]> ∅)))
    (Some [Some "0xa"; Some "0xb"; Some "0xc"]) = 10.
Proof. vm_compute. reflexivity. Qed.

Example average_of_three :
  getAverageFeeForActiveMinipools ex_minipools3 (Node.minipoolIds ex_node3) = 20.
Proof. vm_compute. reflexivity. Qed.

(** ** The stake refresh *)

Lemma setEffectiveRPLStaked_frame chain nd nd' :
  setEffectiveRPLStaked chain nd = Returns nd' ->
  Node.id nd' = Node.id nd /\
  Node.minipoolIds nd' = Node.minipoolIds nd /\
  Node.totalFinalizedMinipools nd' = Node.totalFinalizedMinipools nd /\
  Node.withdrawableMinipools nd' = Node.withdrawableMinipools nd /\
  Node.averageFeeForActiveMinipools nd' = Node.averageFeeForActiveMinipools nd.
Proof.
  unfold setEffectiveRPLStaked.
  destruct (bind_rocketNodeStaking chain) as [c|].
  - destruct (getNodeEffectiveRPLStake c (Node.id nd)); simpl; [|discriminate].
    destruct (getNodeMinimumRPLStake c (Node.id nd)); simpl; [|discriminate].
    destruct (getNodeMaximumRPLStake c (Node.id nd)); simpl; [|discriminate].
    intros [= <-]. repeat split.
  - intros [= <-]. repeat split.
Qed.

Lemma setEffectiveRPLStaked_returns chain c nd e mn mx :
  bind_rocketNodeStaking chain = Some c ->
  getNodeEffectiveRPLStake c (Node.id nd) = Returns e ->
  getNodeMinimumRPLStake c (Node.id nd) = Returns mn ->
  getNodeMaximumRPLStake c (Node.id nd) = Returns mx ->
  setEffectiveRPLStaked chain nd =
  Returns (Node.mk (Node.id nd) (Node.minipoolIds nd)
             (Node.totalFinalizedMinipools nd) (Node.withdrawableMinipools nd)
             e mn mx (Node.averageFeeForActiveMinipools nd)).
Proof.
  intros Hc He Hmn Hmx. unfold setEffectiveRPLStaked.
  rewrite Hc, He. simpl. rewrite Hmn. simpl. rewrite Hmx. reflexivity.
Qed.

Lemma setEffectiveRPLStaked_reverts chain nd :
  stake_read_fails chain (Node.id nd) ->
  setEffectiveRPLStaked chain nd = Reverts.
Proof.
  intros (c & Hc & H). unfold setEffectiveRPLStaked. rewrite Hc.
  destruct (getNodeEffectiveRPLStake c (Node.id nd)); simpl; [|reflexivity].
  destruct (getNodeMinimumRPLStake c (Node.id nd)); simpl; [|reflexivity].
  destruct (getNodeMaximumRPLStake c (Node.id nd)); simpl; [|reflexivity].
  destruct H as [H|[H|H]]; discriminate.
Qed.

(** Whether the refresh returns depends on the node only through its id. *)
Lemma setEffectiveRPLStaked_same_id chain nd1 nd1' nd2 :
  Node.id nd2 = Node.id nd1 ->
  setEffectiveRPLStaked chain nd1 = Returns nd1' ->
  exists nd2', setEffectiveRPLStaked chain nd2 = Returns nd2'.
Proof.
  unfold setEffectiveRPLStaked. intros ->.
  destruct (bind_rocketNodeStaking chain) as [c|]; [|eauto].
  destruct (getNodeEffectiveRPLStake c (Node.id nd1)); simpl; [|discriminate].
  destruct (getNodeMinimumRPLStake c (Node.id nd1)); simpl; [|discriminate].
  destruct (getNodeMaximumRPLStake c (Node.id nd1)); simpl; [|discriminate].
  eauto.
Qed.

(** ** Creation: skipped events *)

Lemma handleMinipoolCreated_existing chain ev p a m st :
  MinipoolCreated.params ev = Some p ->
  MinipoolCreated.minipool p = Some a ->
  minipools st !! a = Some m ->
  run (handleMinipoolCreated chain (Some ev)) st = Completed st.
Proof.
  intros Hp Ha Hm. unfold handleMinipoolCreated. run_handler. rewrite Hp.
  destruct (MinipoolCreated.node p); [|reflexivity].
  rewrite Ha, Hm. reflexivity.
Qed.

(** C7. A creation event whose node is not in the store changes nothing: the
    handler completes (no error) on the store it started from, so no
    Minipool is created, no node is created or modified and no data source
    is registered, whatever the chain would answer. *)
Theorem handleMinipoolCreated_missing_node chain ev p n st :
  MinipoolCreated.params ev = Some p ->
  MinipoolCreated.node p = Some n ->
  nodes st !! n = None ->
  run (handleMinipoolCreated chain (Some ev)) st = Completed st.
Proof.
  intros Hp Hn Hnd. unfold handleMinipoolCreated. run_handler. rewrite Hp, Hn.
  destruct (MinipoolCreated.minipool p) as [a|]; [|reflexivity].
  destruct (minipools st !! a); [reflexivity|].
  rewrite Hnd. reflexivity.
Qed.

Lemma handleMinipoolCreated_missing_node_witness :
  nodes ex_store_empty !! "0xn" = None /\
  run (handleMinipoolCreated ex_chain (Some ex_created)) ex_store_empty
  = Completed ex_store_empty.
Proof.
  split; [reflexivity|].
  apply (handleMinipoolCreated_missing_node ex_chain ex_created
           {| MinipoolCreated.node := Some "0xn"; MinipoolCreated.minipool := Some "0xm" |}
           "0xn" ex_store_empty); reflexivity.
Defined.

(** ** Creation: the membership list *)

Lemma occurrences_app a l1 l2 :
  occurrences a (l1 ++ l2) = (occurrences a l1 + occurrences a l2)%nat.
Proof. unfold occurrences. rewrite filter_app, length_app. reflexivity. Qed.

Lemma occurrences_absent a l : Some a ∉ l -> occurrences a l = 0%nat.
Proof.
  unfold occurrences. induction l as [|x l IH]; intros Hnot; [reflexivity|].
  rewrite filter_cons. apply not_elem_of_cons in Hnot as [Hx Hl].
  destruct (decide (x = Some a)) as [->|_]; [congruence|]. auto.
Qed.

Lemma occurrences_present a l : Some a ∈ l -> (1 <= occurrences a l)%nat.
Proof.
  unfold occurrences. induction l as [|x l IH]; intros Hin.
  - inversion Hin.
  - rewrite filter_cons. destruct (decide (x = Some a)) as [->|Hne].
    + simpl. lia.
    + apply elem_of_cons in Hin as [Heq|Hin]; [congruence|]. auto.
Qed.

Lemma occurrences_singleton a : occurrences a [Some a] = 1%nat.
Proof.
  unfold occurrences. rewrite filter_cons.
  destruct (decide (Some a = Some a)); [reflexivity|congruence].
Qed.

Lemma withMinipoolId_once a ids :
  (forall l, ids = Some l -> (occurrences a l <= 1)%nat) ->
  occurrences a (withMinipoolId a ids) = 1%nat.
Proof.
  intros Hle. unfold withMinipoolId, notIndexed.
  destruct ids as [l|].
  - specialize (Hle l eq_refl).
    destruct (bool_decide (Some a ∈ l)) eqn:Hin; simpl.
    + apply bool_decide_eq_true in Hin. apply occurrences_present in Hin. lia.
    + apply bool_decide_eq_false in Hin.
      rewrite occurrences_app, (occurrences_absent _ _ Hin), occurrences_singleton.
      reflexivity.
  - rewrite bool_decide_eq_true_2 by (apply list_elem_of_singleton; reflexivity).
    apply occurrences_singleton.
Qed.

(** C3. A creation event delivered a second time is a no-op. Let the first
    delivery create the minipool (no minipool at that address yet, the node
    stored under its id, its list holding the address at most once) and
    complete on store [st1]. Then the second delivery, on any chain,
    completes on [st1] unchanged; [st1] holds one Minipool at that address,
    owned by the node, and the address occurs exactly once in the node's
    [minipoolIds]. *)
Theorem handleMinipoolCreated_twice chain1 chain2 ev p n a nd st st1 :
  MinipoolCreated.params ev = Some p ->
  MinipoolCreated.node p = Some n ->
  MinipoolCreated.minipool p = Some a ->
  minipools st !! a = None ->
  nodes st !! n = Some nd ->
  Node.id nd = n ->
  (forall l, Node.minipoolIds nd = Some l -> (occurrences a l <= 1)%nat) ->
  run (handleMinipoolCreated chain1 (Some ev)) st = Completed st1 ->
  run (handleMinipoolCreated chain2 (Some ev)) st1 = Completed st1 /\
  (exists m, minipools st1 !! a = Some m /\
     Minipool.id m = a /\ Minipool.node m = Some n) /\
  (exists nd1 l1, nodes st1 !! n = Some nd1 /\
     Node.minipoolIds nd1 = Some l1 /\ occurrences a l1 = 1%nat).
Proof.
  intros Hp Hn Ha Hm Hnd Hid Hocc Hrun.
  rewrite (handleMinipoolCreated_run _ _ _ _ _ _ _ Hp Hn Ha Hm Hnd) in Hrun.
  unfold created_outcome in Hrun.
  destruct (getNewMinipoolFee chain1) as [fee|]; [|discriminate].
  destruct (setEffectiveRPLStaked chain1 _) as [nd2|] eqn:Hstake; [|discriminate].
  injection Hrun as <-.
  apply setEffectiveRPLStaked_frame in Hstake as (Hid2 & Hids2 & _).
  simpl in Hid2, Hids2.
  assert (Hstored : <[a := Minipool.mk a (Some (Node.id nd)) fee 0 0]> (minipools st) !! a
                    = Some (Minipool.mk a (Some (Node.id nd)) fee 0 0))
    by apply lookup_insert_eq.
  split; [|split].
  - eapply handleMinipoolCreated_existing; [exact Hp|exact Ha|exact Hstored].
  - eexists. split; [exact Hstored|]. simpl. rewrite Hid. split; reflexivity.
  - simpl. rewrite Hid2, Hid. rewrite lookup_insert_eq.
    eexists _, _. split; [reflexivity|]. simpl. split; [exact Hids2|].
    apply withMinipoolId_once. exact Hocc.
Qed.

Lemma handleMinipoolCreated_twice_witness :
  exists st1,
    run (handleMinipoolCreated ex_chain (Some ex_created)) ex_store = Completed st1 /\
    run (handleMinipoolCreated ex_chain_later (Some ex_created)) st1 = Completed st1 /\
    (exists m, minipools st1 !! "0xm" = Some m /\
       Minipool.id m = "0xm" /\ Minipool.node m = Some "0xn") /\
    (exists nd1 l1, nodes st1 !! "0xn" = Some nd1 /\
       Node.minipoolIds nd1 = Some l1 /\ occurrences "0xm" l1 = 1%nat).
Proof.
  eexists. split; [vm_compute; reflexivity|].
  apply (handleMinipoolCreated_twice ex_chain ex_chain_later ex_created
           {| MinipoolCreated.node := Some "0xn"; MinipoolCreated.minipool := Some "0xm" |}
           "0xn" "0xm" ex_node ex_store).
  - reflexivity.
  - reflexivity.
  - reflexivity.
  - reflexivity.
  - reflexivity.
  - reflexivity.
  - intros l [= <-]. vm_compute. lia.
  - vm_compute. reflexivity.
Defined.

(** ** Reverting reads *)

Lemma getNewMinipoolFee_reverts chain :
  fee_read_fails chain -> getNewMinipoolFee chain = Reverts.
Proof. intros (c & Hc & Hfee). unfold getNewMinipoolFee. rewrite Hc. exact Hfee. Qed.

(** C2, amended. When a contract read issued by a handler reverts, the
    invocation is aborted (the error is not swallowed), no Node is saved and
    no data source is registered, so no stake field, average or id list is
    persisted from it. When the read is the network-fee read,
    the store is left exactly as it was. When it is a stake read, the store
    already holds the one write that precedes the refresh in every handler:
    the event's own Minipool, with the fee the chain returned (creation) or
    with its stored fields and the new block time (destruction,
    finalization); never a fee of 0 standing in for a failed read. *)
Theorem read_failure_aborts i st st' :
  read_failure i st st' ->
  dispatch i st = Aborted st' /\
  nodes st' = nodes st /\
  templates st' = templates st.
Proof.
  intros H. destruct H as
    [chain ev p n a nd st Hp Hn Ha Hm Hnd Hfee
    |chain ev p n a nd c fee st Hp Hn Ha Hm Hnd Hc Hfee Hstake
    |chain ev p n a b m nd st Hp Hn Ha Hb Hm Hnd Hstake
    |chain c b a m n nd st Hb Ha Hm Hn Hnd Hstake]; simpl.
  - rewrite (handleMinipoolCreated_run _ _ _ _ _ _ _ Hp Hn Ha Hm Hnd).
    unfold created_outcome. rewrite (getNewMinipoolFee_reverts _ Hfee).
    repeat split.
  - rewrite (handleMinipoolCreated_run _ _ _ _ _ _ _ Hp Hn Ha Hm Hnd).
    unfold created_outcome, getNewMinipoolFee. rewrite Hc, Hfee.
    rewrite setEffectiveRPLStaked_reverts by exact Hstake.
    repeat split.
  - rewrite (handleMinipoolDestroyed_run _ _ _ _ _ _ _ _ _ Hp Hn Ha Hb Hm Hnd).
    unfold destroyed_outcome.
    rewrite setEffectiveRPLStaked_reverts by exact Hstake.
    repeat split.
  - rewrite (handleIncrementNodeFinalisedMinipoolCount_run _ _ _ _ _ _ _ _ Hb Ha Hm Hn Hnd).
    unfold finalised_outcome.
    rewrite setEffectiveRPLStaked_reverts
      by (unfold finalisedCounters; destruct (_ <? 0); exact Hstake).
    repeat split.
Qed.

Lemma ex_stake_read_fails : stake_read_fails ex_chain_stake_reverting (Node.id ex_node).
Proof. exists ex_staking_reverting. split; [reflexivity|]. right; left. reflexivity. Qed.

Lemma ex_read_failure :
  read_failure (OnMinipoolCreated ex_chain_stake_reverting (Some ex_created)) ex_store
    (mkStore (<["0xm" := Minipool.mk "0xm" (Some "0xn") 15 0 0]> (minipools ex_store))
             (nodes ex_store) (templates ex_store)).
Proof.
  apply (stake_failure_on_creation ex_chain_stake_reverting ex_created
           {| MinipoolCreated.node := Some "0xn"; MinipoolCreated.minipool := Some "0xm" |}
           "0xn" "0xm" ex_node {| getNodeFee := Returns 15 |} 15 ex_store);
    try reflexivity.
  exact ex_stake_read_fails.
Defined.

Lemma read_failure_aborts_witness :
  dispatch (OnMinipoolCreated ex_chain_stake_reverting (Some ex_created)) ex_store
  = Aborted
      (mkStore (<["0xm" := Minipool.mk "0xm" (Some "0xn") 15 0 0]> (minipools ex_store))
               (nodes ex_store) (templates ex_store)) /\
  nodes ex_store = nodes ex_store /\
  templates ex_store = templates ex_store.
Proof. exact (read_failure_aborts _ _ _ ex_read_failure). Defined.

(** C2 as stated does not hold: on a creation event whose stake read
    reverts, the handler is aborted after it saved the new Minipool, which
    the stored node, never saved, does not list. The abort is not entire:
    the store differs from the one the invocation started on. *)
Lemma stake_revert_on_creation_leaves_minipool :
  stake_read_fails ex_chain_stake_reverting "0xn" /\
  exists st',
    dispatch (OnMinipoolCreated ex_chain_stake_reverting (Some ex_created)) ex_store
    = Aborted st' /\
    minipools ex_store !! "0xm" = None /\
    minipools st' !! "0xm" = Some (Minipool.mk "0xm" (Some "0xn") 15 0 0) /\
    nodes st' !! "0xn" = Some ex_node /\
    st' <> ex_store.
Proof.
  split; [exact ex_stake_read_fails|].
  eexists. split; [vm_compute; reflexivity|].
  split; [reflexivity|]. split; [vm_compute; reflexivity|].
  split; [vm_compute; reflexivity|].
  intros Heq. apply (f_equal (fun s => minipools s !! "0xm")) in Heq.
  vm_compute in Heq. discriminate.
Qed.

(** ** Destruction and the average *)

Lemma spec_activeFee_destroyed ms a m ts i :
  ts <> 0 ->
  spec_activeFee (<[a := Minipool.set_destroyedBlockTime ts m]> ms) i =
  spec_activeFee (delete a ms) i.
Proof.
  intros Hts. destruct i as [i|]; [|reflexivity]. simpl.
  destruct (decide (i = a)) as [->|Hne].
  - rewrite lookup_insert_eq, lookup_delete_eq. unfold spec_active. simpl.
    apply Z.eqb_neq in Hts. rewrite Hts, andb_false_r. reflexivity.
  - rewrite lookup_insert_ne, lookup_delete_ne by congruence. reflexivity.
Qed.

Lemma spec_activeFees_destroyed ms a m ts ids :
  ts <> 0 ->
  spec_activeFees (<[a := Minipool.set_destroyedBlockTime ts m]> ms) ids =
  spec_activeFees (delete a ms) ids.
Proof.
  intros Hts. unfold spec_activeFees.
  induction ids as [|i ids IH]; [reflexivity|].
  cbn [omap list_omap]. fold (@omap list _ _ _ (spec_activeFee (delete a ms)) ids).
  rewrite (spec_activeFee_destroyed _ _ _ _ _ Hts).
  destruct (spec_activeFee (delete a ms) i); rewrite <- IH; reflexivity.
Qed.

(** C4. For a destruction event whose minipool and node are stored (each
    under its id), whose node has an id list and whose stake reads return,
    the handler completes; the store then holds the minipool with
    [destroyedBlockTime] set to the block timestamp, and the node's
    [averageFeeForActiveMinipools] is the average over that store, the one
    after the destruction. For a non-zero timestamp this is the average over
    the other minipools of the list: the destroyed one's fee is left out. *)
Theorem handleMinipoolDestroyed_average chain ev p n a b m nd nd2 ids st :
  MinipoolDestroyed.params ev = Some p ->
  MinipoolDestroyed.node p = Some n ->
  MinipoolDestroyed.minipool p = Some a ->
  MinipoolDestroyed.block ev = Some b ->
  minipools st !! a = Some m ->
  Minipool.id m = a ->
  nodes st !! n = Some nd ->
  Node.id nd = n ->
  Node.minipoolIds nd = Some ids ->
  setEffectiveRPLStaked chain nd = Returns nd2 ->
  let ms' := <[a := Minipool.set_destroyedBlockTime (timestamp b) m]> (minipools st) in
  exists nd',
    run (handleMinipoolDestroyed chain (Some ev)) st
    = Completed (mkStore ms' (<[n := nd']> (nodes st)) (templates st)) /\
    Node.averageFeeForActiveMinipools nd' = spec_average (spec_activeFees ms' ids) /\
    (timestamp b <> 0 ->
     Node.averageFeeForActiveMinipools nd'
     = spec_average (spec_activeFees (delete a (minipools st)) ids)).
Proof.
  intros Hp Hn Ha Hb Hm Hmid Hnd Hnid Hids Hstake ms'.
  rewrite (handleMinipoolDestroyed_run _ _ _ _ _ _ _ _ _ Hp Hn Ha Hb Hm Hnd).
  unfold destroyed_outcome. rewrite Hstake, Hids, Hmid. fold ms'.
  destruct (setEffectiveRPLStaked_frame _ _ _ Hstake) as (Hid2 & _).
  rewrite Hid2, Hnid. unfold withAverage.
  eexists. split; [reflexivity|].
  cbn [Node.averageFeeForActiveMinipools Node.set_averageFeeForActiveMinipools].
  rewrite average_refines. cbn [default].
  split; [reflexivity|].
  intros Hts. unfold ms'. rewrite spec_activeFees_destroyed by exact Hts. reflexivity.
Qed.

Lemma handleMinipoolDestroyed_average_witness :
  let ms' := <["0xc" := Minipool.set_destroyedBlockTime 1000 (ex_minipool "0xc" 30)]>
               (minipools ex_store3) in
  exists nd',
    run (handleMinipoolDestroyed ex_chain (Some ex_destroyed)) ex_store3
    = Completed (mkStore ms' (<["0xn" := nd']> (nodes ex_store3)) (templates ex_store3)) /\
    Node.averageFeeForActiveMinipools nd'
    = spec_average (spec_activeFees ms' [Some "0xa"; Some "0xb"; Some "0xc"]) /\
    (1000 <> 0 ->
     Node.averageFeeForActiveMinipools nd'
     = spec_average (spec_activeFees (delete "0xc" (minipools ex_store3))
                       [Some "0xa"; Some "0xb"; Some "0xc"])).
Proof.
  apply (handleMinipoolDestroyed_average ex_chain ex_destroyed
           {| MinipoolDestroyed.node := Some "0xn"; MinipoolDestroyed.minipool := Some "0xc" |}
           "0xn" "0xc" {| timestamp := 1000 |} (ex_minipool "0xc" 30) ex_node3 ex_node3
           [Some "0xa"; Some "0xb"; Some "0xc"] ex_store3); reflexivity.
Defined.

(** Fees 10, 20, 30: the average is 20, and 15 once the minipool of fee 30
    is destroyed. *)
Example average_after_destruction :
  Node.averageFeeForActiveMinipools
    <$> nodes (store_of (run (handleMinipoolDestroyed ex_chain (Some ex_destroyed)) ex_store3))
        !! "0xn"
  = Some 15.
Proof. vm_compute. reflexivity. Qed.

(** ** Finalization and the counters *)

Lemma handleIncrementNodeFinalisedMinipoolCount_completes chain c b a m n nd nd2 st :
  IncrementNodeFinalisedMinipoolCountCall.block c = Some b ->
  IncrementNodeFinalisedMinipoolCountCall.from c = Some a ->
  minipools st !! a = Some m ->
  Minipool.node m = Some n ->
  nodes st !! n = Some nd ->
  Node.id nd = n ->
  setEffectiveRPLStaked chain nd = Returns nd2 ->
  exists st' nd',
    run (handleIncrementNodeFinalisedMinipoolCount chain (Some c)) st = Completed st' /\
    nodes st' !! n = Some nd' /\
    Node.totalFinalizedMinipools nd'
    = Node.totalFinalizedMinipools (finalisedCounters nd) /\
    Node.withdrawableMinipools nd'
    = Node.withdrawableMinipools (finalisedCounters nd).
Proof.
  intros Hb Ha Hm Hn Hnd Hid Hstake.
  rewrite (handleIncrementNodeFinalisedMinipoolCount_run _ _ _ _ _ _ _ _ Hb Ha Hm Hn Hnd).
  unfold finalised_outcome.
  assert (Hsame : Node.id (finalisedCounters nd) = Node.id nd)
    by (unfold finalisedCounters; destruct (_ <? 0); reflexivity).
  destruct (setEffectiveRPLStaked_same_id _ _ _ _ Hsame Hstake) as [nd3 Hstake3].
  rewrite Hstake3.
  apply setEffectiveRPLStaked_frame in Hstake3 as (Hid3 & _ & Htot & Hwd & _).
  rewrite Hid3, Hsame, Hid.
  eexists _, _. split; [reflexivity|]. simpl. rewrite lookup_insert_eq.
  split; [reflexivity|].
  unfold withAverage. destruct (Node.minipoolIds nd); simpl; auto.
Qed.

Lemma finalisedCounters_total nd :
  Node.totalFinalizedMinipools (finalisedCounters nd)
  = Node.totalFinalizedMinipools nd + 1.
Proof. unfold finalisedCounters. simpl. destruct (_ <? 0); reflexivity. Qed.

Lemma finalisedCounters_withdrawable nd :
  Node.withdrawableMinipools (finalisedCounters nd)
  = Z.max 0 (Node.totalFinalizedMinipools nd + 1 - 1).
Proof.
  unfold finalisedCounters. simpl.
  destruct (Z.ltb_spec (Node.totalFinalizedMinipools nd + 1 - 1) 0); simpl; lia.
Qed.

(** C5. For a finalization call whose minipool has a recorded node and
    whose node is stored (under its id), with the stake reads returning, the
    handler completes and the stored node has [totalFinalizedMinipools] one
    above its former value and [withdrawableMinipools] equal to the new
    [totalFinalizedMinipools] minus one, clamped below at zero. *)
Theorem handleIncrementNodeFinalisedMinipoolCount_counters
    chain c b a m n nd nd2 st :
  IncrementNodeFinalisedMinipoolCountCall.block c = Some b ->
  IncrementNodeFinalisedMinipoolCountCall.from c = Some a ->
  minipools st !! a = Some m ->
  Minipool.node m = Some n ->
  nodes st !! n = Some nd ->
  Node.id nd = n ->
  setEffectiveRPLStaked chain nd = Returns nd2 ->
  exists st' nd',
    run (handleIncrementNodeFinalisedMinipoolCount chain (Some c)) st = Completed st' /\
    nodes st' !! n = Some nd' /\
    Node.totalFinalizedMinipools nd' = Node.totalFinalizedMinipools nd + 1 /\
    Node.withdrawableMinipools nd' = Z.max 0 (Node.totalFinalizedMinipools nd' - 1).
Proof.
  intros Hb Ha Hm Hn Hnd Hid Hstake.
  destruct (handleIncrementNodeFinalisedMinipoolCount_completes
              _ _ _ _ _ _ _ _ _ Hb Ha Hm Hn Hnd Hid Hstake)
    as (st' & nd' & Hrun & Hnd' & Htot & Hwd).
  exists st', nd'. split; [exact Hrun|]. split; [exact Hnd'|].
  rewrite Hwd, Htot, finalisedCounters_total, finalisedCounters_withdrawable.
  split; reflexivity.
Qed.

Lemma handleIncrementNodeFinalisedMinipoolCount_counters_witness :
  exists st' nd',
    run (handleIncrementNodeFinalisedMinipoolCount ex_chain (Some ex_finalised)) ex_store3
    = Completed st' /\
    nodes st' !! "0xn" = Some nd' /\
    Node.totalFinalizedMinipools nd' = Node.totalFinalizedMinipools ex_node3 + 1 /\
    Node.withdrawableMinipools nd' = Z.max 0 (Node.totalFinalizedMinipools nd' - 1).
Proof.
  apply (handleIncrementNodeFinalisedMinipoolCount_counters ex_chain ex_finalised
           {| timestamp := 2000 |} "0xc" (ex_minipool "0xc" 30) "0xn" ex_node3 ex_node3
           ex_store3); reflexivity.
Defined.

(** C10. When [totalFinalizedMinipools] is non-negative on entry, the test
    of the zero clamp is false on the value just assigned, and the stored
    [withdrawableMinipools] is the difference itself: the new
    [totalFinalizedMinipools] minus one. *)
Theorem handleIncrementNodeFinalisedMinipoolCount_clamp_unreachable
    chain c b a m n nd nd2 st :
  IncrementNodeFinalisedMinipoolCountCall.block c = Some b ->
  IncrementNodeFinalisedMinipoolCountCall.from c = Some a ->
  minipools st !! a = Some m ->
  Minipool.node m = Some n ->
  nodes st !! n = Some nd ->
  Node.id nd = n ->
  setEffectiveRPLStaked chain nd = Returns nd2 ->
  0 <= Node.totalFinalizedMinipools nd ->
  (Node.totalFinalizedMinipools nd + 1 - 1 <? 0) = false /\
  exists st' nd',
    run (handleIncrementNodeFinalisedMinipoolCount chain (Some c)) st = Completed st' /\
    nodes st' !! n = Some nd' /\
    Node.withdrawableMinipools nd' = Node.totalFinalizedMinipools nd' - 1 /\
    0 <= Node.withdrawableMinipools nd'.
Proof.
  intros Hb Ha Hm Hn Hnd Hid Hstake Hpos.
  split; [apply Z.ltb_ge; lia|].
  destruct (handleIncrementNodeFinalisedMinipoolCount_completes
              _ _ _ _ _ _ _ _ _ Hb Ha Hm Hn Hnd Hid Hstake)
    as (st' & nd' & Hrun & Hnd' & Htot & Hwd).
  exists st', nd'. split; [exact Hrun|]. split; [exact Hnd'|].
  rewrite Hwd, Htot, finalisedCounters_total, finalisedCounters_withdrawable.
  split; lia.
Qed.

Lemma handleIncrementNodeFinalisedMinipoolCount_clamp_unreachable_witness :
  0 <= Node.totalFinalizedMinipools ex_node3 /\
  (Node.totalFinalizedMinipools ex_node3 + 1 - 1 <? 0) = false /\
  exists st' nd',
    run (handleIncrementNodeFinalisedMinipoolCount ex_chain (Some ex_finalised)) ex_store3
    = Completed st' /\
    nodes st' !! "0xn" = Some nd' /\
    Node.withdrawableMinipools nd' = Node.totalFinalizedMinipools nd' - 1 /\
    0 <= Node.withdrawableMinipools nd'.
Proof.
  split; [simpl; lia|].
  apply (handleIncrementNodeFinalisedMinipoolCount_clamp_unreachable ex_chain ex_finalised
           {| timestamp := 2000 |} "0xc" (ex_minipool "0xc" 30) "0xn" ex_node3 ex_node3
           ex_store3); try reflexivity.
Defined.

(** ** What the handlers write to the node store *)

Lemma withAverage_frame ms ids nd :
  Node.id (withAverage ms ids nd) = Node.id nd /\
  Node.totalFinalizedMinipools (withAverage ms ids nd) = Node.totalFinalizedMinipools nd /\
  Node.withdrawableMinipools (withAverage ms ids nd) = Node.withdrawableMinipools nd.
Proof. unfold withAverage. destruct ids; repeat split. Qed.

Lemma finalisedCounters_id nd : Node.id (finalisedCounters nd) = Node.id nd.
Proof. unfold finalisedCounters. destruct (_ <? 0); reflexivity. Qed.

(** An invocation leaves the node store as it was, or saves over one node it
    loaded, under the same id, with [withdrawableMinipools] either kept or
    non-negative. *)
Lemma dispatch_nodes i st :
  nodes (store_of (dispatch i st)) = nodes st \/
  exists k nd nd',
    nodes st !! k = Some nd /\
    nodes (store_of (dispatch i st)) = <[Node.id nd := nd']> (nodes st) /\
    Node.id nd' = Node.id nd /\
    (Node.withdrawableMinipools nd' = Node.withdrawableMinipools nd \/
     0 <= Node.withdrawableMinipools nd').
Proof.
  destruct i as [chain event|chain event|chain call]; simpl.
  - destruct (handleMinipoolCreated_cases chain event st)
      as [->|(ev & p & n & a & nd & _ & _ & _ & _ & _ & Hnd & ->)]; [left; reflexivity|].
    unfold created_outcome.
    destruct (getNewMinipoolFee chain); [|left; reflexivity].
    destruct (setEffectiveRPLStaked chain _) as [nd2|] eqn:Hstake; [|left; reflexivity].
    apply setEffectiveRPLStaked_frame in Hstake as (Hid & _ & _ & Hwd & _).
    simpl in Hid, Hwd. right. exists n, nd. eexists.
    split; [exact Hnd|]. simpl. rewrite Hid.
    split; [reflexivity|]. simpl. auto.
  - destruct (handleMinipoolDestroyed_cases chain event st)
      as [->|(ev & p & n & a & b & m & nd & _ & _ & _ & _ & _ & _ & Hnd & ->)];
      [left; reflexivity|].
    unfold destroyed_outcome.
    destruct (setEffectiveRPLStaked chain nd) as [nd2|] eqn:Hstake; [|left; reflexivity].
    apply setEffectiveRPLStaked_frame in Hstake as (Hid & _ & _ & Hwd & _).
    right. exists n, nd. eexists.
    split; [exact Hnd|]. simpl. rewrite Hid.
    split; [reflexivity|].
    destruct (withAverage_frame
                (<[Minipool.id m := Minipool.set_destroyedBlockTime (timestamp b) m]>
                   (minipools st))
                (Node.minipoolIds nd) nd2) as (-> & _ & ->).
    auto.
  - destruct (handleIncrementNodeFinalisedMinipoolCount_cases chain call st)
      as [->|(c & b & a & m & n & nd & _ & _ & _ & _ & _ & Hnd & ->)];
      [left; reflexivity|].
    unfold finalised_outcome.
    destruct (setEffectiveRPLStaked chain _) as [nd2|] eqn:Hstake; [|left; reflexivity].
    apply setEffectiveRPLStaked_frame in Hstake as (Hid & _ & _ & Hwd & _).
    rewrite finalisedCounters_id in Hid.
    rewrite finalisedCounters_withdrawable in Hwd.
    right. exists n, nd. eexists.
    split; [exact Hnd|]. simpl. rewrite Hid.
    split; [reflexivity|].
    destruct (withAverage_frame
                (<[Minipool.id m := Minipool.set_finalizedBlockTime (timestamp b) m]>
                   (minipools st))
                (Node.minipoolIds nd) nd2) as (-> & _ & ->).
    split; [exact Hid|]. right. lia.
Qed.

Lemma dispatch_nodes_wf i st :
  nodes_wf (nodes st) -> nodes_wf (nodes (store_of (dispatch i st))).
Proof.
  intros Hwf. destruct (dispatch_nodes i st)
    as [->|(k & nd & nd' & Hk & -> & Hid & _)]; [exact Hwf|].
  apply map_Forall_insert_2; [exact Hid|exact Hwf].
Qed.

Lemma reachable_nodes_wf st st' :
  reachable st st' -> nodes_wf (nodes st) -> nodes_wf (nodes st').
Proof.
  induction 1 as [|st' i _ IH]; intros Hwf; [exact Hwf|].
  apply dispatch_nodes_wf, IH, Hwf.
Qed.

(** C6. A node stored under its id with a non-negative
    [withdrawableMinipools] is still stored, with a non-negative
    [withdrawableMinipools], after any sequence of handler invocations,
    completed or aborted, in any order. *)
Theorem withdrawableMinipools_never_negative st st' n nd :
  nodes_wf (nodes st) ->
  nodes st !! n = Some nd ->
  0 <= Node.withdrawableMinipools nd ->
  reachable st st' ->
  exists nd', nodes st' !! n = Some nd' /\ 0 <= Node.withdrawableMinipools nd'.
Proof.
  intros Hwf Hnd Hpos Hreach.
  induction Hreach as [|st' i Hreach (nd1 & Hnd1 & Hpos1)]; [eauto|].
  pose proof (reachable_nodes_wf _ _ Hreach Hwf) as Hwf'.
  destruct (dispatch_nodes i st')
    as [->|(k & nd0 & nd' & Hk & -> & Hid & Hwd)]; [eauto|].
  rewrite (Hwf' _ _ Hk).
  destruct (decide (k = n)) as [->|Hne].
  - rewrite lookup_insert_eq. exists nd'. split; [reflexivity|].
    assert (nd0 = nd1) as -> by congruence.
    destruct Hwd as [->|Hwd]; assumption.
  - rewrite lookup_insert_ne by exact Hne. eauto.
Qed.

Lemma ex_store3_nodes_wf : nodes_wf (nodes ex_store3).
Proof. apply map_Forall_singleton. reflexivity. Defined.

Lemma withdrawableMinipools_never_negative_witness :
  0 <= Node.withdrawableMinipools ex_node3 /\
  exists nd',
    nodes (store_of (dispatch (OnMinipoolDestroyed ex_chain (Some ex_destroyed))
             (store_of (dispatch
                (OnIncrementNodeFinalisedMinipoolCount ex_chain (Some ex_finalised))
                ex_store3)))) !! "0xn" = Some nd' /\
    0 <= Node.withdrawableMinipools nd'.
Proof.
  split; [simpl; lia|].
  apply (withdrawableMinipools_never_negative ex_store3 _ "0xn" ex_node3).
  - exact ex_store3_nodes_wf.
  - reflexivity.
  - simpl; lia.
  - apply reachable_step, reachable_step, reachable_refl.
Defined.

(** ** What destruction and finalization write to a minipool *)

Lemma set_destroyedBlockTime_same m :
  m = Minipool.set_destroyedBlockTime (Minipool.destroyedBlockTime m) m.
Proof. destruct m; reflexivity. Qed.

Lemma set_finalizedBlockTime_same m :
  m = Minipool.set_finalizedBlockTime (Minipool.finalizedBlockTime m) m.
Proof. destruct m; reflexivity. Qed.

Lemma handleMinipoolDestroyed_minipools chain event st :
  minipools (store_of (run (handleMinipoolDestroyed chain event) st)) = minipools st \/
  exists a m ts,
    minipools st !! a = Some m /\
    minipools (store_of (run (handleMinipoolDestroyed chain event) st))
    = <[Minipool.id m := Minipool.set_destroyedBlockTime ts m]> (minipools st).
Proof.
  destruct (handleMinipoolDestroyed_cases chain event st)
    as [->|(ev & p & n & a & b & m & nd & _ & _ & _ & _ & _ & Hm & _ & ->)];
    [left; reflexivity|].
  right. exists a, m, (timestamp b). split; [exact Hm|].
  unfold destroyed_outcome. destruct (setEffectiveRPLStaked chain nd); reflexivity.
Qed.

Lemma handleIncrementNodeFinalisedMinipoolCount_minipools chain call st :
  minipools (store_of (run (handleIncrementNodeFinalisedMinipoolCount chain call) st))
  = minipools st \/
  exists a m ts,
    minipools st !! a = Some m /\
    minipools (store_of (run (handleIncrementNodeFinalisedMinipoolCount chain call) st))
    = <[Minipool.id m := Minipool.set_finalizedBlockTime ts m]> (minipools st).
Proof.
  destruct (handleIncrementNodeFinalisedMinipoolCount_cases chain call st)
    as [->|(c & b & a & m & n & nd & _ & _ & _ & Hm & _ & _ & ->)];
    [left; reflexivity|].
  right. exists a, m, (timestamp b). split; [exact Hm|].
  unfold finalised_outcome. destruct (setEffectiveRPLStaked chain _); reflexivity.
Qed.

(** C8. In a store where every minipool sits under its id, a destruction or
    finalization invocation (whatever its event, completed or aborted)
    leaves every stored minipool with its [fee] and its [node] link: after a
    destruction the minipool differs from its former value at most in
    [destroyedBlockTime], after a finalization at most in
    [finalizedBlockTime]. *)
Theorem destruction_and_finalization_keep_fee_and_node st k m :
  minipools_wf (minipools st) ->
  minipools st !! k = Some m ->
  (forall chain event,
     exists m',
       minipools (store_of (run (handleMinipoolDestroyed chain event) st)) !! k = Some m' /\
       Minipool.fee m' = Minipool.fee m /\
       Minipool.node m' = Minipool.node m /\
       m' = Minipool.set_destroyedBlockTime (Minipool.destroyedBlockTime m') m) /\
  (forall chain call,
     exists m',
       minipools (store_of (run (handleIncrementNodeFinalisedMinipoolCount chain call) st))
         !! k = Some m' /\
       Minipool.fee m' = Minipool.fee m /\
       Minipool.node m' = Minipool.node m /\
       m' = Minipool.set_finalizedBlockTime (Minipool.finalizedBlockTime m') m).
Proof.
  intros Hwf Hk. split.
  - intros chain event.
    destruct (handleMinipoolDestroyed_minipools chain event st)
      as [->|(a & m0 & ts & Ha & ->)].
    + exists m. repeat split; [exact Hk|apply set_destroyedBlockTime_same].
    + rewrite (Hwf _ _ Ha). destruct (decide (a = k)) as [->|Hne].
      * assert (m0 = m) as -> by congruence.
        rewrite lookup_insert_eq. eexists. repeat split.
      * rewrite lookup_insert_ne by exact Hne.
        exists m. repeat split; [exact Hk|apply set_destroyedBlockTime_same].
  - intros chain call.
    destruct (handleIncrementNodeFinalisedMinipoolCount_minipools chain call st)
      as [->|(a & m0 & ts & Ha & ->)].
    + exists m. repeat split; [exact Hk|apply set_finalizedBlockTime_same].
    + rewrite (Hwf _ _ Ha). destruct (decide (a = k)) as [->|Hne].
      * assert (m0 = m) as -> by congruence.
        rewrite lookup_insert_eq. eexists. repeat split.
      * rewrite lookup_insert_ne by exact Hne.
        exists m. repeat split; [exact Hk|apply set_finalizedBlockTime_same].
Qed.

Lemma ex_store3_minipools_wf : minipools_wf (minipools ex_store3).
Proof.
  unfold ex_store3, ex_minipools3. simpl.
  repeat (apply map_Forall_insert_2; [reflexivity|]).
  apply map_Forall_empty.
Defined.

Lemma destruction_and_finalization_keep_fee_and_node_witness :
  exists m',
    minipools (store_of (run (handleMinipoolDestroyed ex_chain (Some ex_destroyed)) ex_store3))
      !! "0xc" = Some m' /\
    Minipool.fee m' = 30 /\
    Minipool.node m' = Some "0xn" /\
    m' = Minipool.set_destroyedBlockTime (Minipool.destroyedBlockTime m')
           (ex_minipool "0xc" 30).
Proof.
  apply (proj1 (destruction_and_finalization_keep_fee_and_node
                  ex_store3 "0xc" (ex_minipool "0xc" 30)
                  ex_store3_minipools_wf eq_refl)).
Defined.

(** ** A minipool's fee along a run *)

Lemma handleMinipoolCreated_minipools chain event st :
  minipools (store_of (run (handleMinipoolCreated chain event) st)) = minipools st \/
  exists a owner fee,
    minipools st !! a = None /\
    minipools (store_of (run (handleMinipoolCreated chain event) st))
    = <[a := Minipool.mk a owner fee 0 0]> (minipools st).
Proof.
  destruct (handleMinipoolCreated_cases chain event st)
    as [->|(ev & p & n & a & nd & _ & _ & _ & _ & Ha & _ & ->)]; [left; reflexivity|].
  unfold created_outcome.
  destruct (getNewMinipoolFee chain) as [fee|]; [|left; reflexivity].
  right. exists a, (Some (Node.id nd)), fee. split; [exact Ha|].
  destruct (setEffectiveRPLStaked chain _); reflexivity.
Qed.

(** Every invocation keeps the minipools already stored under their id, with
    their [id], [node] link and [fee]. *)
Lemma dispatch_minipools i st k m :
  minipools_wf (minipools st) ->
  minipools st !! k = Some m ->
  exists m',
    minipools (store_of (dispatch i st)) !! k = Some m' /\
    Minipool.id m' = Minipool.id m /\
    Minipool.node m' = Minipool.node m /\
    Minipool.fee m' = Minipool.fee m.
Proof.
  intros Hwf Hk. destruct i as [chain event|chain event|chain call]; simpl.
  - destruct (handleMinipoolCreated_minipools chain event st)
      as [->|(a & owner & fee & Ha & ->)]; [eauto|].
    rewrite lookup_insert_ne by congruence. eauto.
  - destruct (handleMinipoolDestroyed_minipools chain event st)
      as [->|(a & m0 & ts & Ha & ->)]; [eauto|].
    rewrite (Hwf _ _ Ha). destruct (decide (a = k)) as [->|Hne].
    + assert (m0 = m) as -> by congruence. rewrite lookup_insert_eq. eauto.
    + rewrite lookup_insert_ne by exact Hne. eauto.
  - destruct (handleIncrementNodeFinalisedMinipoolCount_minipools chain call st)
      as [->|(a & m0 & ts & Ha & ->)]; [eauto|].
    rewrite (Hwf _ _ Ha). destruct (decide (a = k)) as [->|Hne].
    + assert (m0 = m) as -> by congruence. rewrite lookup_insert_eq. eauto.
    + rewrite lookup_insert_ne by exact Hne. eauto.
Qed.

Lemma dispatch_minipools_wf i st :
  minipools_wf (minipools st) -> minipools_wf (minipools (store_of (dispatch i st))).
Proof.
  intros Hwf. destruct i as [chain event|chain event|chain call]; simpl.
  - destruct (handleMinipoolCreated_minipools chain event st)
      as [->|(a & owner & fee & Ha & ->)]; [exact Hwf|].
    apply map_Forall_insert_2; [reflexivity|exact Hwf].
  - destruct (handleMinipoolDestroyed_minipools chain event st)
      as [->|(a & m0 & ts & Ha & ->)]; [exact Hwf|].
    apply map_Forall_insert_2; [reflexivity|exact Hwf].
  - destruct (handleIncrementNodeFinalisedMinipoolCount_minipools chain call st)
      as [->|(a & m0 & ts & Ha & ->)]; [exact Hwf|].
    apply map_Forall_insert_2; [reflexivity|exact Hwf].
Qed.

(** Along any run, a stored minipool stays stored with the fee and the node
    link it has: the fee is fixed at creation. *)
Lemma fee_never_revised st st' k m :
  minipools_wf (minipools st) ->
  minipools st !! k = Some m ->
  reachable st st' ->
  minipools_wf (minipools st') /\
  exists m',
    minipools st' !! k = Some m' /\
    Minipool.node m' = Minipool.node m /\
    Minipool.fee m' = Minipool.fee m.
Proof.
  intros Hwf Hk Hreach.
  induction Hreach as [|st' i _ (Hwf' & m1 & Hk1 & Hnode1 & Hfee1)]; [eauto|].
  split; [apply dispatch_minipools_wf, Hwf'|].
  destruct (dispatch_minipools i st' k m1 Hwf' Hk1) as (m' & Hk' & _ & Hnode' & Hfee').
  exists m'. split; [exact Hk'|]. split; congruence.
Qed.

(** ** Repeated stake refreshes *)

Lemma refreshes_app chains1 chains2 nd :
  refreshes (chains1 ++ chains2) nd =
  call_bind (refreshes chains1 nd) (refreshes chains2).
Proof.
  revert nd. induction chains1 as [|chain chains1 IH]; intros nd; [reflexivity|].
  simpl. destruct (setEffectiveRPLStaked chain nd) as [nd1|]; simpl; [apply IH|reflexivity].
Qed.

Lemma refreshes_frame chains : forall nd nd',
  refreshes chains nd = Returns nd' ->
  Node.id nd' = Node.id nd /\
  Node.minipoolIds nd' = Node.minipoolIds nd /\
  Node.totalFinalizedMinipools nd' = Node.totalFinalizedMinipools nd /\
  Node.withdrawableMinipools nd' = Node.withdrawableMinipools nd /\
  Node.averageFeeForActiveMinipools nd' = Node.averageFeeForActiveMinipools nd.
Proof.
  induction chains as [|chain chains IH]; intros nd nd'; simpl.
  - intros [= <-]. repeat split.
  - destruct (setEffectiveRPLStaked chain nd) as [nd1|] eqn:Hstake; simpl; [|discriminate].
    intros H. apply IH in H as (-> & -> & -> & -> & ->).
    exact (setEffectiveRPLStaked_frame _ _ _ Hstake).
Qed.

(** C9. A stake refresh for which the staking contract is bound and its
    three reads for the node's address return overwrites
    [effectiveRPLStaked], [minimumEffectiveRPL] and [maximumEffectiveRPL]
    with the values read, whatever they held. After any sequence of
    refreshes the node is the initial node with these three fields set to
    the values of the last read: nothing of the earlier reads remains. *)
Theorem refreshes_keep_latest_read chains chain c nd nd1 e mn mx :
  refreshes chains nd = Returns nd1 ->
  bind_rocketNodeStaking chain = Some c ->
  getNodeEffectiveRPLStake c (Node.id nd) = Returns e ->
  getNodeMinimumRPLStake c (Node.id nd) = Returns mn ->
  getNodeMaximumRPLStake c (Node.id nd) = Returns mx ->
  refreshes (chains ++ [chain]) nd =
  Returns (Node.mk (Node.id nd) (Node.minipoolIds nd)
             (Node.totalFinalizedMinipools nd) (Node.withdrawableMinipools nd)
             e mn mx (Node.averageFeeForActiveMinipools nd)).
Proof.
  intros Hprev Hc He Hmn Hmx.
  rewrite refreshes_app, Hprev. simpl.
  apply refreshes_frame in Hprev as (Hid & Hids & Htot & Hwd & Havg).
  rewrite <- Hid in He, Hmn, Hmx.
  rewrite (setEffectiveRPLStaked_returns _ _ _ _ _ _ Hc He Hmn Hmx). simpl.
  rewrite Hid, Hids, Htot, Hwd, Havg. reflexivity.
Qed.

Lemma refreshes_keep_latest_read_witness :
  refreshes ([ex_chain; ex_chain] ++ [ex_chain_later]) ex_node =
  Returns (Node.mk "0xn" (Some []) 0 0 70 40 90 0).
Proof.
  apply (refreshes_keep_latest_read [ex_chain; ex_chain] ex_chain_later ex_staking_later
           ex_node (Node.mk "0xn" (Some []) 0 0 100 50 150 0) 70 40 90); reflexivity.
Defined.

(** * Further properties of the mapping *)

(** ** The average, as a function of the ids and the store *)

Lemma spec_average_nonneg fees : 0 <= spec_average fees.
Proof.
  unfold spec_average.
  destruct (0 <? Z.of_nat (length fees)) eqn:Hc; simpl; [|lia].
  destruct (0 <? sumZ fees) eqn:Hs; simpl; [|lia].
  apply Z.ltb_lt in Hc, Hs. apply Z.quot_pos; lia.
Qed.

(** X1. Whatever the store and the ids, the average returned is never
    negative (even if stored fees were): a quotient is only taken of a
    positive sum by a positive count. *)
Theorem getAverageFeeForActiveMinipools_nonneg
    (ms : gmap string Minipool.t) (minipoolIds : option (list (option string))) :
  0 <= getAverageFeeForActiveMinipools ms minipoolIds.
Proof. rewrite average_refines. apply spec_average_nonneg. Qed.

Lemma sumZ_bounds lo hi fees :
  Forall (fun x => lo <= x <= hi) fees ->
  Z.of_nat (length fees) * lo <= sumZ fees <= Z.of_nat (length fees) * hi.
Proof.
  induction 1 as [|x fees Hx _ IH]; [simpl; lia|].
  change (sumZ (x :: fees)) with (x + sumZ fees).
  rewrite length_cons, Nat2Z.inj_succ. lia.
Qed.

Lemma spec_average_between lo hi fees :
  0 <= lo -> fees <> [] ->
  Forall (fun x => lo <= x <= hi) fees ->
  lo <= spec_average fees <= hi.
Proof.
  intros Hlo Hne Hall.
  pose proof (sumZ_bounds _ _ _ Hall) as Hsum.
  assert (Hcount : 0 < Z.of_nat (length fees)) by (destruct fees; [congruence|simpl; lia]).
  assert (Hhi : lo <= hi).
  { destruct fees as [|x fees]; [congruence|]. inversion Hall; subst. lia. }
  unfold spec_average. rewrite (proj2 (Z.ltb_lt _ _) Hcount). simpl.
  destruct (Z.ltb_spec 0 (sumZ fees)) as [Hs|Hs].
  - rewrite Z.quot_div_nonneg by lia. split.
    + apply Z.div_le_lower_bound; lia.
    + apply Z.div_le_upper_bound; lia.
  - nia.
Qed.

Lemma spec_activeFee_Some ms i f :
  spec_activeFee ms i = Some f ->
  exists k m, i = Some k /\ ms !! k = Some m /\
    Minipool.finalizedBlockTime m = 0 /\ Minipool.destroyedBlockTime m = 0 /\
    Minipool.fee m = f.
Proof.
  unfold spec_activeFee, spec_active. destruct i as [k|]; [|discriminate].
  destruct (ms !! k) as [m|] eqn:Hk; [|discriminate].
  destruct (Z.eqb_spec (Minipool.finalizedBlockTime m) 0) as [Hf|]; [|discriminate].
  destruct (Z.eqb_spec (Minipool.destroyedBlockTime m) 0) as [Hd|]; [|discriminate].
  simpl. intros [= <-]. exists k, m. repeat split; assumption.
Qed.

Lemma spec_activeFee_active ms k m :
  ms !! k = Some m ->
  Minipool.finalizedBlockTime m = 0 -> Minipool.destroyedBlockTime m = 0 ->
  spec_activeFee ms (Some k) = Some (Minipool.fee m).
Proof.
  intros Hk Hf Hd. unfold spec_activeFee, spec_active. rewrite Hk, Hf, Hd. reflexivity.
Qed.

(** X2. When every active minipool of the list has its fee between [lo] and
    [hi], with [0 <= lo], and at least one listed minipool is active, the
    average lies between [lo] and [hi] as well: truncation never takes it
    out of the range of the fees averaged. *)
Theorem getAverageFeeForActiveMinipools_between
    (ms : gmap string Minipool.t) (ids : list (option string)) lo hi k0 m0 :
  0 <= lo ->
  (forall k m, Some k ∈ ids -> ms !! k = Some m ->
     Minipool.finalizedBlockTime m = 0 -> Minipool.destroyedBlockTime m = 0 ->
     lo <= Minipool.fee m <= hi) ->
  Some k0 ∈ ids -> ms !! k0 = Some m0 ->
  Minipool.finalizedBlockTime m0 = 0 -> Minipool.destroyedBlockTime m0 = 0 ->
  lo <= getAverageFeeForActiveMinipools ms (Some ids) <= hi.
Proof.
  intros Hlo Hall Hin0 Hk0 Hf0 Hd0. rewrite average_refines. change (default [] (Some ids)) with ids.
  apply spec_average_between; [exact Hlo| |].
  - intros Hnil.
    assert (Hmem : Minipool.fee m0 ∈ spec_activeFees ms ids).
    { apply list_elem_of_omap. exists (Some k0). split; [exact Hin0|].
      apply spec_activeFee_active; assumption. }
    rewrite Hnil in Hmem. inversion Hmem.
  - apply Forall_forall. intros f Hf.
    apply list_elem_of_omap in Hf as (i & Hi & Hfee).
    apply spec_activeFee_Some in Hfee as (k & m & -> & Hk & Hfin & Hdes & <-).
    eauto.
Qed.

Lemma getAverageFeeForActiveMinipools_between_witness :
  10 <= getAverageFeeForActiveMinipools ex_minipools3
          (Some [Some "0xa"; Some "0xb"; Some "0xc"]) <= 30.
Proof.
  apply (getAverageFeeForActiveMinipools_between ex_minipools3
           [Some "0xa"; Some "0xb"; Some "0xc"] 10 30 "0xa" (ex_minipool "0xa" 10)).
  - lia.
  - intros k m Hin Hk _ _.
    repeat (apply elem_of_cons in Hin as [[= ->]|Hin];
            [vm_compute in Hk; injection Hk as <-; simpl; lia|]).
    inversion Hin.
  - apply list_elem_of_here.
  - reflexivity.
  - reflexivity.
  - reflexivity.
Defined.

Lemma sumZ_Permutation l1 l2 : l1 ≡ₚ l2 -> sumZ l1 = sumZ l2.
Proof.
  induction 1 as [|x l1 l2 _ IH|x y l|l1 l2 l3 _ IH1 _ IH2]; simpl; lia.
Qed.

(** X3. The average does not depend on the order of the ids: any
    rearrangement of the list gives the same result. *)
Theorem getAverageFeeForActiveMinipools_Permutation
    (ms : gmap string Minipool.t) (ids ids' : list (option string)) :
  ids ≡ₚ ids' ->
  getAverageFeeForActiveMinipools ms (Some ids) =
  getAverageFeeForActiveMinipools ms (Some ids').
Proof.
  intros Hperm. rewrite !average_refines.
  change (default [] (Some ids)) with ids. change (default [] (Some ids')) with ids'.
  assert (Hfees : spec_activeFees ms ids ≡ₚ spec_activeFees ms ids')
    by (unfold spec_activeFees; rewrite Hperm; reflexivity).
  unfold spec_average.
  rewrite (sumZ_Permutation _ _ Hfees), (Permutation_length Hfees). reflexivity.
Qed.

Lemma getAverageFeeForActiveMinipools_Permutation_witness :
  getAverageFeeForActiveMinipools ex_minipools3 (Some [Some "0xa"; Some "0xb"; Some "0xc"]) =
  getAverageFeeForActiveMinipools ex_minipools3 (Some [Some "0xc"; Some "0xa"; Some "0xb"]).
Proof.
  apply getAverageFeeForActiveMinipools_Permutation.
  symmetry. apply (Permutation_cons_append [Some "0xa"; Some "0xb"] (Some "0xc")).
Defined.

Lemma spec_activeFees_ext ms1 ms2 ids :
  (forall k, Some k ∈ ids -> ms1 !! k = ms2 !! k) ->
  spec_activeFees ms1 ids = spec_activeFees ms2 ids.
Proof.
  intros Hext. unfold spec_activeFees. apply list_omap_ext.
  induction ids as [|i ids IH]; constructor.
  - destruct i as [k|]; [|reflexivity]. simpl.
    rewrite (Hext k) by apply list_elem_of_here. reflexivity.
  - apply IH. intros k Hk. apply Hext. apply list_elem_of_further, Hk.
Qed.

Lemma spec_activeFees_ext_gen ms1 ms2 ids :
  (forall i, spec_activeFee ms1 i = spec_activeFee ms2 i) ->
  spec_activeFees ms1 ids = spec_activeFees ms2 ids.
Proof.
  intros Hext. unfold spec_activeFees. apply list_omap_ext.
  induction ids as [|i ids IH]; constructor; [apply Hext|exact IH].
Qed.

(** X4. The average reads the store only at the ids of the list: two stores
    that agree on these give the same average, so writing a minipool that
    is not listed does not change it. *)
Theorem getAverageFeeForActiveMinipools_local
    (ms1 ms2 : gmap string Minipool.t) (ids : list (option string)) :
  (forall k, Some k ∈ ids -> ms1 !! k = ms2 !! k) ->
  getAverageFeeForActiveMinipools ms1 (Some ids) =
  getAverageFeeForActiveMinipools ms2 (Some ids).
Proof.
  intros Hext. rewrite !average_refines. change (default [] (Some ids)) with ids.
  rewrite (spec_activeFees_ext _ _ _ Hext). reflexivity.
Qed.

Lemma getAverageFeeForActiveMinipools_local_witness :
  getAverageFeeForActiveMinipools (<["0xz" := ex_minipool "0xz" 99]> ex_minipools3)
    (Some [Some "0xa"; Some "0xb"; Some "0xc"]) =
  getAverageFeeForActiveMinipools ex_minipools3 (Some [Some "0xa"; Some "0xb"; Some "0xc"]).
Proof.
  apply getAverageFeeForActiveMinipools_local.
  intros k Hin.
  repeat (apply elem_of_cons in Hin as [[= ->]|Hin]; [vm_compute; reflexivity|]).
  inversion Hin.
Defined.

(** X5. An id that is null, that does not load, or whose minipool is
    finalized or destroyed, can be dropped from the list (or added to it)
    without changing the average. *)
Theorem getAverageFeeForActiveMinipools_skips
    (ms : gmap string Minipool.t) (ids1 ids2 : list (option string)) (i : option string) :
  (forall k m, i = Some k -> ms !! k = Some m ->
     Minipool.finalizedBlockTime m <> 0 \/ Minipool.destroyedBlockTime m <> 0) ->
  getAverageFeeForActiveMinipools ms (Some (ids1 ++ i :: ids2)) =
  getAverageFeeForActiveMinipools ms (Some (ids1 ++ ids2)).
Proof.
  intros Hskip. rewrite !average_refines. unfold default, from_option, id.
  assert (Hnone : spec_activeFee ms i = None).
  { destruct (spec_activeFee ms i) as [f|] eqn:Hf; [|reflexivity].
    apply spec_activeFee_Some in Hf as (k & m & -> & Hk & Hfin & Hdes & _).
    destruct (Hskip k m eq_refl Hk); congruence. }
  unfold spec_activeFees. rewrite !omap_app. cbn [omap list_omap].
  rewrite Hnone. reflexivity.
Qed.

Lemma getAverageFeeForActiveMinipools_skips_witness :
  getAverageFeeForActiveMinipools ex_minipools3
    (Some ([Some "0xa"; Some "0xb"] ++ Some "0xmissing" :: [Some "0xc"])) =
  getAverageFeeForActiveMinipools ex_minipools3
    (Some ([Some "0xa"; Some "0xb"] ++ [Some "0xc"])).
Proof.
  apply getAverageFeeForActiveMinipools_skips.
  intros k m [= <-] Hk. vm_compute in Hk. discriminate.
Defined.

(** ** Skipped invocations *)

(** X6. A destruction event whose minipool is not stored, or whose node is
    not stored, changes nothing: the handler completes on the store it
    started from, without reading the chain. *)
Theorem handleMinipoolDestroyed_missing_entity chain ev p n a st :
  MinipoolDestroyed.params ev = Some p ->
  MinipoolDestroyed.node p = Some n ->
  MinipoolDestroyed.minipool p = Some a ->
  minipools st !! a = None \/ nodes st !! n = None ->
  run (handleMinipoolDestroyed chain (Some ev)) st = Completed st.
Proof.
  intros Hp Hn Ha Hmiss.
  destruct (handleMinipoolDestroyed_cases chain (Some ev) st)
    as [H|(ev' & p' & n' & a' & b & m & nd & Hev & Hp' & Hn' & Ha' & _ & Hm & Hnd & _)];
    [exact H|].
  injection Hev as <-. rewrite Hp in Hp'. injection Hp' as <-.
  rewrite Hn in Hn'. injection Hn' as <-. rewrite Ha in Ha'. injection Ha' as <-.
  destruct Hmiss; congruence.
Qed.

Lemma handleMinipoolDestroyed_missing_entity_witness :
  run (handleMinipoolDestroyed ex_chain_stake_reverting (Some ex_destroyed)) ex_store
  = Completed ex_store.
Proof.
  apply (handleMinipoolDestroyed_missing_entity ex_chain_stake_reverting ex_destroyed
           {| MinipoolDestroyed.node := Some "0xn"; MinipoolDestroyed.minipool := Some "0xc" |}
           "0xn" "0xc" ex_store); try reflexivity.
  left. reflexivity.
Defined.

(** X7. A finalization call from an address that is not a stored minipool,
    or from a minipool without a node link, or whose node is not stored,
    changes nothing: no block time is written and no counter is
    incremented. *)
Theorem handleIncrementNodeFinalisedMinipoolCount_missing_entity chain c a st :
  IncrementNodeFinalisedMinipoolCountCall.from c = Some a ->
  (minipools st !! a = None \/
   exists m, minipools st !! a = Some m /\
     (Minipool.node m = None \/
      exists n, Minipool.node m = Some n /\ nodes st !! n = None)) ->
  run (handleIncrementNodeFinalisedMinipoolCount chain (Some c)) st = Completed st.
Proof.
  intros Ha Hmiss.
  destruct (handleIncrementNodeFinalisedMinipoolCount_cases chain (Some c) st)
    as [H|(c' & b & a' & m & n & nd & Hc & _ & Ha' & Hm & Hn & Hnd & _)]; [exact H|].
  injection Hc as <-. rewrite Ha in Ha'. injection Ha' as <-.
  destruct Hmiss as [Hnone|(m' & Hm' & [Hnone|(n' & Hn' & Hnone)])]; congruence.
Qed.

Lemma handleIncrementNodeFinalisedMinipoolCount_missing_entity_witness :
  run (handleIncrementNodeFinalisedMinipoolCount ex_chain (Some ex_finalised)) ex_store
  = Completed ex_store.
Proof.
  apply (handleIncrementNodeFinalisedMinipoolCount_missing_entity ex_chain ex_finalised
           "0xc" ex_store); [reflexivity|].
  left. reflexivity.
Defined.

(** X8. An invocation that fails a preliminary null check (a null event or
    call, null params, a null address or a null block where the handler
    needs one) changes nothing and raises nothing. *)
Theorem malformed_invocation_is_skipped i st :
  ~ wellformed i ->
  dispatch i st = Completed st.
Proof.
  intros Hbad. destruct i as [chain event|chain event|chain call]; simpl in *.
  - destruct (handleMinipoolCreated_cases chain event st)
      as [H|(ev & p & n & a & nd & Hev & Hp & Hn & Ha & _)]; [exact H|].
    exfalso. apply Hbad. exists ev, p, n, a. auto.
  - destruct (handleMinipoolDestroyed_cases chain event st)
      as [H|(ev & p & n & a & b & m & nd & Hev & Hp & Hn & Ha & Hb & _)]; [exact H|].
    exfalso. apply Hbad. exists ev, p, n, a, b. auto.
  - destruct (handleIncrementNodeFinalisedMinipoolCount_cases chain call st)
      as [H|(c & b & a & m & n & nd & Hc & Hb & Ha & _)]; [exact H|].
    exfalso. apply Hbad. exists c, b, a. auto.
Qed.

Lemma malformed_invocation_is_skipped_witness :
  dispatch (OnMinipoolDestroyed ex_chain
              (Some {| MinipoolDestroyed.params :=
                         Some {| MinipoolDestroyed.node := Some "0xn";
                                 MinipoolDestroyed.minipool := Some "0xc" |};
                       MinipoolDestroyed.block := None |})) ex_store3
  = Completed ex_store3.
Proof.
  apply malformed_invocation_is_skipped.
  intros (ev & p & n & a & b & [= <-] & _ & _ & _ & Hb). discriminate Hb.
Defined.

(** ** Aborts come from reverting reads only *)

Lemma chain_answers_fee chain :
  chain_answers chain -> exists fee, getNewMinipoolFee chain = Returns fee.
Proof.
  intros [Hfee _]. unfold getNewMinipoolFee.
  destruct (bind_rocketNetworkFees chain) as [c|]; [apply Hfee; reflexivity|eauto].
Qed.

Lemma chain_answers_stake chain nd :
  chain_answers chain -> exists nd', setEffectiveRPLStaked chain nd = Returns nd'.
Proof.
  intros [_ Hstake]. unfold setEffectiveRPLStaked.
  destruct (bind_rocketNodeStaking chain) as [c|] eqn:Hc; [|eauto].
  destruct (Hstake c (Node.id nd) eq_refl) as (e & mn & mx & -> & -> & ->).
  simpl. eauto.
Qed.

(** X9. On a chain none of whose reads reverts, every invocation runs to
    completion: a handler is aborted only by a reverting contract read. *)
Theorem dispatch_completes i st :
  chain_answers (chain_of i) ->
  exists st', dispatch i st = Completed st'.
Proof.
  intros Hans. destruct i as [chain event|chain event|chain call]; simpl in *.
  - destruct (handleMinipoolCreated_cases chain event st)
      as [->|(ev & p & n & a & nd & _ & _ & _ & _ & _ & _ & ->)]; [eauto|].
    unfold created_outcome.
    destruct (chain_answers_fee _ Hans) as [fee ->].
    destruct (chain_answers_stake chain
                (Node.set_minipoolIds (Some (withMinipoolId a (Node.minipoolIds nd))) nd)
                Hans) as [nd2 ->].
    eauto.
  - destruct (handleMinipoolDestroyed_cases chain event st)
      as [->|(ev & p & n & a & b & m & nd & _ & _ & _ & _ & _ & _ & _ & ->)]; [eauto|].
    unfold destroyed_outcome.
    destruct (chain_answers_stake chain nd Hans) as [nd2 ->]. eauto.
  - destruct (handleIncrementNodeFinalisedMinipoolCount_cases chain call st)
      as [->|(c & b & a & m & n & nd & _ & _ & _ & _ & _ & _ & ->)]; [eauto|].
    unfold finalised_outcome.
    destruct (chain_answers_stake chain (finalisedCounters nd) Hans) as [nd2 ->]. eauto.
Qed.

Lemma ex_chain_answers : chain_answers ex_chain.
Proof.
  split.
  - intros c [= <-]. exists 15. reflexivity.
  - intros c address [= <-]. exists 100, 50, 150. repeat split.
Defined.

Lemma dispatch_completes_witness :
  exists st', dispatch (OnMinipoolDestroyed ex_chain (Some ex_destroyed)) ex_store3
              = Completed st'.
Proof.
  apply (dispatch_completes (OnMinipoolDestroyed ex_chain (Some ex_destroyed)) ex_store3).
  exact ex_chain_answers.
Defined.

(** ** A completed creation *)

Lemma withMinipoolId_elem a ids : Some a ∈ withMinipoolId a ids.
Proof.
  unfold withMinipoolId, notIndexed.
  destruct (bool_decide (Some a ∈ default [Some a] ids)) eqn:Hin;
    destruct ids as [l|]; simpl in *; rewrite ?Hin; simpl.
  - apply bool_decide_eq_true in Hin. exact Hin.
  - apply list_elem_of_here.
  - apply elem_of_app. right. apply list_elem_of_here.
  - apply bool_decide_eq_false in Hin. exfalso. apply Hin, list_elem_of_here.
Qed.

(** X10. A creation event for a new address whose node is stored (under its
    id), on a chain whose reads return, completes: the store gains one
    Minipool at that address, owned by the node, with the fee just read and
    both block times 0; the node's list holds the address; the node's
    average is the one over the store that already holds the new minipool;
    and the address is registered as a data source, last in the list. *)
Theorem handleMinipoolCreated_completes chain ev p n a nd fee nd2 st :
  MinipoolCreated.params ev = Some p ->
  MinipoolCreated.node p = Some n ->
  MinipoolCreated.minipool p = Some a ->
  minipools st !! a = None ->
  nodes st !! n = Some nd ->
  Node.id nd = n ->
  getNewMinipoolFee chain = Returns fee ->
  setEffectiveRPLStaked chain nd = Returns nd2 ->
  exists st' nd' ids,
    run (handleMinipoolCreated chain (Some ev)) st = Completed st' /\
    minipools st' = <[a := Minipool.mk a (Some n) fee 0 0]> (minipools st) /\
    nodes st' = <[n := nd']> (nodes st) /\
    Node.minipoolIds nd' = Some ids /\
    Some a ∈ ids /\
    Node.averageFeeForActiveMinipools nd'
    = spec_average (spec_activeFees (minipools st') ids) /\
    templates st' = templates st ++ [a].
Proof.
  intros Hp Hn Ha Hm Hnd Hid Hfee Hstake.
  rewrite (handleMinipoolCreated_run _ _ _ _ _ _ _ Hp Hn Ha Hm Hnd).
  unfold created_outcome. rewrite Hfee.
  set (ids := withMinipoolId a (Node.minipoolIds nd)).
  destruct (setEffectiveRPLStaked_same_id chain nd nd2
              (Node.set_minipoolIds (Some ids) nd) eq_refl Hstake) as [nd3 Hstake3].
  rewrite Hstake3.
  apply setEffectiveRPLStaked_frame in Hstake3 as (Hid3 & Hids3 & _).
  simpl in Hid3, Hids3. rewrite Hid3, Hid.
  eexists _, _, ids. split; [reflexivity|].
  cbn [minipools nodes templates Node.minipoolIds Node.averageFeeForActiveMinipools
       Node.set_averageFeeForActiveMinipools].
  split; [reflexivity|]. split; [reflexivity|]. split; [exact Hids3|].
  split; [apply withMinipoolId_elem|]. split; [|reflexivity].
  rewrite average_refines. reflexivity.
Qed.

Lemma handleMinipoolCreated_completes_witness :
  exists st' nd' ids,
    run (handleMinipoolCreated ex_chain (Some ex_created)) ex_store = Completed st' /\
    minipools st' = <["0xm" := Minipool.mk "0xm" (Some "0xn") 15 0 0]> (minipools ex_store) /\
    nodes st' = <["0xn" := nd']> (nodes ex_store) /\
    Node.minipoolIds nd' = Some ids /\
    Some "0xm" ∈ ids /\
    Node.averageFeeForActiveMinipools nd'
    = spec_average (spec_activeFees (minipools st') ids) /\
    templates st' = templates ex_store ++ ["0xm"].
Proof.
  apply (handleMinipoolCreated_completes ex_chain ex_created
           {| MinipoolCreated.node := Some "0xn"; MinipoolCreated.minipool := Some "0xm" |}
           "0xn" "0xm" ex_node 15 (Node.mk "0xn" (Some []) 0 0 100 50 150 0) ex_store);
    reflexivity.
Defined.

(** ** Finalization and the average *)

Lemma spec_activeFees_finalized ms a m ts ids :
  ts <> 0 ->
  spec_activeFees (<[a := Minipool.set_finalizedBlockTime ts m]> ms) ids =
  spec_activeFees (delete a ms) ids.
Proof.
  intros Hts. apply spec_activeFees_ext_gen. intros i.
  destruct i as [i|]; [|reflexivity]. simpl.
  destruct (decide (i = a)) as [->|Hne].
  - rewrite lookup_insert_eq, lookup_delete_eq. unfold spec_active. simpl.
    apply Z.eqb_neq in Hts. rewrite Hts. reflexivity.
  - rewrite lookup_insert_ne, lookup_delete_ne by congruence. reflexivity.
Qed.

(** X11. For a finalization call that passes its guards (minipool and node
    stored under their ids, a non-null id list) with the stake reads
    returning, the minipool is saved with [finalizedBlockTime] set to the
    block timestamp before the average is recomputed: the node's stored
    average is the one over the store after the finalization, and for a
    non-zero timestamp the finalized minipool's fee is left out of it. *)
Theorem handleIncrementNodeFinalisedMinipoolCount_average
    chain c b a m n nd nd2 ids st :
  IncrementNodeFinalisedMinipoolCountCall.block c = Some b ->
  IncrementNodeFinalisedMinipoolCountCall.from c = Some a ->
  minipools st !! a = Some m ->
  Minipool.id m = a ->
  Minipool.node m = Some n ->
  nodes st !! n = Some nd ->
  Node.id nd = n ->
  Node.minipoolIds nd = Some ids ->
  setEffectiveRPLStaked chain nd = Returns nd2 ->
  let ms' := <[a := Minipool.set_finalizedBlockTime (timestamp b) m]> (minipools st) in
  exists nd',
    run (handleIncrementNodeFinalisedMinipoolCount chain (Some c)) st
    = Completed (mkStore ms' (<[n := nd']> (nodes st)) (templates st)) /\
    Node.averageFeeForActiveMinipools nd' = spec_average (spec_activeFees ms' ids) /\
    (timestamp b <> 0 ->
     Node.averageFeeForActiveMinipools nd'
     = spec_average (spec_activeFees (delete a (minipools st)) ids)).
Proof.
  intros Hb Ha Hm Hmid Hn Hnd Hnid Hids Hstake ms'.
  rewrite (handleIncrementNodeFinalisedMinipoolCount_run _ _ _ _ _ _ _ _ Hb Ha Hm Hn Hnd).
  unfold finalised_outcome.
  destruct (setEffectiveRPLStaked_same_id chain nd nd2 (finalisedCounters nd)
              (finalisedCounters_id nd) Hstake) as [nd3 Hstake3].
  rewrite Hstake3, Hids, Hmid. fold ms'.
  apply setEffectiveRPLStaked_frame in Hstake3 as (Hid3 & _).
  rewrite Hid3, finalisedCounters_id, Hnid. unfold withAverage.
  eexists. split; [reflexivity|].
  cbn [Node.averageFeeForActiveMinipools Node.set_averageFeeForActiveMinipools].
  rewrite average_refines. change (default [] (Some ids)) with ids.
  split; [reflexivity|].
  intros Hts. unfold ms'. rewrite spec_activeFees_finalized by exact Hts. reflexivity.
Qed.

Lemma handleIncrementNodeFinalisedMinipoolCount_average_witness :
  let ms' := <["0xc" := Minipool.set_finalizedBlockTime 2000 (ex_minipool "0xc" 30)]>
               (minipools ex_store3) in
  exists nd',
    run (handleIncrementNodeFinalisedMinipoolCount ex_chain (Some ex_finalised)) ex_store3
    = Completed (mkStore ms' (<["0xn" := nd']> (nodes ex_store3)) (templates ex_store3)) /\
    Node.averageFeeForActiveMinipools nd'
    = spec_average (spec_activeFees ms' [Some "0xa"; Some "0xb"; Some "0xc"]) /\
    (2000 <> 0 ->
     Node.averageFeeForActiveMinipools nd'
     = spec_average (spec_activeFees (delete "0xc" (minipools ex_store3))
                       [Some "0xa"; Some "0xb"; Some "0xc"])).
Proof.
  apply (handleIncrementNodeFinalisedMinipoolCount_average ex_chain ex_finalised
           {| timestamp := 2000 |} "0xc" (ex_minipool "0xc" 30) "0xn" ex_node3 ex_node3
           [Some "0xa"; Some "0xb"; Some "0xc"] ex_store3); reflexivity.
Defined.

(** ** Doing it again *)

(** A node that already holds what a refresh gave, and has the same id, is
    returned as it is by a refresh on the same chain. *)
Lemma setEffectiveRPLStaked_fixed chain nd nd2 nd' :
  setEffectiveRPLStaked chain nd = Returns nd2 ->
  Node.id nd' = Node.id nd ->
  Node.effectiveRPLStaked nd' = Node.effectiveRPLStaked nd2 ->
  Node.minimumEffectiveRPL nd' = Node.minimumEffectiveRPL nd2 ->
  Node.maximumEffectiveRPL nd' = Node.maximumEffectiveRPL nd2 ->
  setEffectiveRPLStaked chain nd' = Returns nd'.
Proof.
  unfold setEffectiveRPLStaked. intros H Hid He Hmn Hmx. rewrite Hid.
  destruct (bind_rocketNodeStaking chain) as [c|]; [|reflexivity].
  destruct (getNodeEffectiveRPLStake c (Node.id nd)) as [e|]; simpl in *; [|discriminate].
  destruct (getNodeMinimumRPLStake c (Node.id nd)) as [mn|]; simpl in *; [|discriminate].
  destruct (getNodeMaximumRPLStake c (Node.id nd)) as [mx|]; simpl in *; [|discriminate].
  injection H as <-. simpl in He, Hmn, Hmx. subst e mn mx.
  destruct nd'; reflexivity.
Qed.

(** X12. The stake refresh is idempotent on a given chain state: refreshing
    the node it returned gives that node back. *)
Theorem setEffectiveRPLStaked_idempotent chain nd nd2 :
  setEffectiveRPLStaked chain nd = Returns nd2 ->
  setEffectiveRPLStaked chain nd2 = Returns nd2.
Proof.
  intros H. apply (setEffectiveRPLStaked_fixed chain nd nd2 nd2 H); try reflexivity.
  apply (setEffectiveRPLStaked_frame _ _ _ H).
Qed.

Lemma setEffectiveRPLStaked_idempotent_witness :
  setEffectiveRPLStaked ex_chain (Node.mk "0xn" (Some []) 0 0 100 50 150 0)
  = Returns (Node.mk "0xn" (Some []) 0 0 100 50 150 0).
Proof.
  apply (setEffectiveRPLStaked_idempotent ex_chain ex_node). reflexivity.
Defined.

Lemma withAverage_stakes ms ids nd :
  Node.minipoolIds (withAverage ms ids nd) = Node.minipoolIds nd /\
  Node.effectiveRPLStaked (withAverage ms ids nd) = Node.effectiveRPLStaked nd /\
  Node.minimumEffectiveRPL (withAverage ms ids nd) = Node.minimumEffectiveRPL nd /\
  Node.maximumEffectiveRPL (withAverage ms ids nd) = Node.maximumEffectiveRPL nd.
Proof. unfold withAverage. destruct ids; repeat split. Qed.

Lemma withAverage_idempotent ms ids nd :
  withAverage ms ids (withAverage ms ids nd) = withAverage ms ids nd.
Proof. unfold withAverage. destruct ids; reflexivity. Qed.

Lemma set_destroyedBlockTime_twice ts m :
  Minipool.set_destroyedBlockTime ts (Minipool.set_destroyedBlockTime ts m)
  = Minipool.set_destroyedBlockTime ts m.
Proof. reflexivity. Qed.

(** X13. Redelivering a destruction event is harmless: in a store whose
    entities sit under their ids, a destruction that completed, delivered
    again on the same chain state, completes on the very store the first
    delivery left. *)
Theorem handleMinipoolDestroyed_idempotent chain event st st1 :
  minipools_wf (minipools st) ->
  nodes_wf (nodes st) ->
  run (handleMinipoolDestroyed chain event) st = Completed st1 ->
  run (handleMinipoolDestroyed chain event) st1 = Completed st1.
Proof.
  intros Hmwf Hnwf Hrun.
  destruct (handleMinipoolDestroyed_cases chain event st)
    as [H|(ev & p & n & a & b & m & nd & -> & Hp & Hn & Ha & Hb & Hm & Hnd & H)];
    rewrite H in Hrun.
  { injection Hrun as <-. exact H. }
  unfold destroyed_outcome in Hrun.
  destruct (setEffectiveRPLStaked chain nd) as [nd2|] eqn:Hstake; [|discriminate].
  injection Hrun as <-.
  pose proof (Hmwf _ _ Hm) as Hmid. pose proof (Hnwf _ _ Hnd) as Hnid.
  simpl in Hmid, Hnid.
  destruct (setEffectiveRPLStaked_frame _ _ _ Hstake) as (Hid2 & Hids2 & _).
  set (m1 := Minipool.set_destroyedBlockTime (timestamp b) m).
  set (ms1 := <[Minipool.id m := m1]> (minipools st)).
  set (nd1 := withAverage ms1 (Node.minipoolIds nd) nd2).
  destruct (withAverage_frame ms1 (Node.minipoolIds nd) nd2) as (Hid1 & _).
  destruct (withAverage_stakes ms1 (Node.minipoolIds nd) nd2) as (Hids1 & He1 & Hmn1 & Hmx1).
  fold nd1 in Hid1, Hids1, He1, Hmn1, Hmx1.
  pose (st1 := mkStore ms1 (<[Node.id nd2 := nd1]> (nodes st)) (templates st)).
  change (run (handleMinipoolDestroyed chain (Some ev)) st1 = Completed st1).
  assert (Hm1 : minipools st1 !! a = Some m1).
  { unfold st1, ms1. simpl. rewrite Hmid. apply lookup_insert_eq. }
  assert (Hnd1 : nodes st1 !! n = Some nd1).
  { unfold st1. simpl. rewrite Hid2, Hnid. apply lookup_insert_eq. }
  rewrite (handleMinipoolDestroyed_run _ _ _ _ _ _ _ _ _ Hp Hn Ha Hb Hm1 Hnd1).
  unfold destroyed_outcome.
  rewrite (setEffectiveRPLStaked_fixed chain nd nd2 nd1 Hstake)
    by (congruence || assumption).
  assert (Hms : <[Minipool.id m1 := Minipool.set_destroyedBlockTime (timestamp b) m1]>
                  (minipools st1) = ms1).
  { unfold st1, m1, ms1. simpl. apply insert_insert_eq. }
  rewrite Hms. rewrite Hids1, Hids2.
  assert (Hnd1' : withAverage ms1 (Node.minipoolIds nd) nd1 = nd1)
    by apply withAverage_idempotent.
  rewrite Hnd1', Hid1. unfold st1. simpl. rewrite insert_insert_eq. reflexivity.
Qed.

Lemma handleMinipoolDestroyed_idempotent_witness :
  exists st1,
    run (handleMinipoolDestroyed ex_chain (Some ex_destroyed)) ex_store3 = Completed st1 /\
    run (handleMinipoolDestroyed ex_chain (Some ex_destroyed)) st1 = Completed st1.
Proof.
  eexists. split; [vm_compute; reflexivity|].
  apply (handleMinipoolDestroyed_idempotent ex_chain (Some ex_destroyed) ex_store3).
  - exact ex_store3_minipools_wf.
  - exact ex_store3_nodes_wf.
  - vm_compute. reflexivity.
Defined.

(** ** How an invocation changes the stored nodes *)

Lemma node_evolves_refl nd : node_evolves nd nd.
Proof. unfold node_evolves. auto. Qed.

Lemma dispatch_nodes_detail i st :
  nodes (store_of (dispatch i st)) = nodes st \/
  exists k nd nd',
    nodes st !! k = Some nd /\
    nodes (store_of (dispatch i st)) = <[Node.id nd := nd']> (nodes st) /\
    node_evolves nd nd' /\
    (is_creation i = false -> Node.minipoolIds nd' = Node.minipoolIds nd) /\
    (is_finalisation i = false ->
     Node.totalFinalizedMinipools nd' = Node.totalFinalizedMinipools nd /\
     Node.withdrawableMinipools nd' = Node.withdrawableMinipools nd).
Proof.
  destruct i as [chain event|chain event|chain call]; simpl.
  - destruct (handleMinipoolCreated_cases chain event st)
      as [->|(ev & p & n & a & nd & _ & _ & _ & _ & _ & Hnd & ->)]; [left; reflexivity|].
    unfold created_outcome.
    destruct (getNewMinipoolFee chain); [|left; reflexivity].
    destruct (setEffectiveRPLStaked chain _) as [nd2|] eqn:Hstake; [|left; reflexivity].
    apply setEffectiveRPLStaked_frame in Hstake as (Hid & Hids & Htot & Hwd & _).
    simpl in Hid, Hids, Htot, Hwd. right. exists n, nd. eexists.
    split; [exact Hnd|]. simpl. rewrite Hid. split; [reflexivity|].
    unfold node_evolves. simpl. rewrite Hid, Hids, Htot, Hwd.
    split; [|split; [discriminate|auto]].
    split; [reflexivity|]. split; [right; eauto|auto].
  - destruct (handleMinipoolDestroyed_cases chain event st)
      as [->|(ev & p & n & a & b & m & nd & _ & _ & _ & _ & _ & _ & Hnd & ->)];
      [left; reflexivity|].
    unfold destroyed_outcome.
    destruct (setEffectiveRPLStaked chain nd) as [nd2|] eqn:Hstake; [|left; reflexivity].
    apply setEffectiveRPLStaked_frame in Hstake as (Hid & Hids & Htot & Hwd & _).
    right. exists n, nd. eexists.
    split; [exact Hnd|]. simpl. rewrite Hid. split; [reflexivity|].
    set (ms := <[Minipool.id m := _]> (minipools st)).
    destruct (withAverage_frame ms (Node.minipoolIds nd) nd2) as (Hid' & Htot' & Hwd').
    destruct (withAverage_stakes ms (Node.minipoolIds nd) nd2) as (Hids' & _).
    unfold node_evolves. rewrite Hid', Hids', Htot', Hwd', Hid, Hids, Htot, Hwd.
    auto 10.
  - destruct (handleIncrementNodeFinalisedMinipoolCount_cases chain call st)
      as [->|(c & b & a & m & n & nd & _ & _ & _ & _ & _ & Hnd & ->)];
      [left; reflexivity|].
    unfold finalised_outcome.
    destruct (setEffectiveRPLStaked chain _) as [nd2|] eqn:Hstake; [|left; reflexivity].
    apply setEffectiveRPLStaked_frame in Hstake as (Hid & Hids & Htot & Hwd & _).
    rewrite finalisedCounters_id in Hid.
    rewrite finalisedCounters_total in Htot.
    rewrite finalisedCounters_withdrawable in Hwd.
    assert (Hids0 : Node.minipoolIds (finalisedCounters nd) = Node.minipoolIds nd)
      by (unfold finalisedCounters; destruct (_ <? 0); reflexivity).
    rewrite Hids0 in Hids.
    right. exists n, nd. eexists.
    split; [exact Hnd|]. simpl. rewrite Hid. split; [reflexivity|].
    set (ms := <[Minipool.id m := _]> (minipools st)).
    destruct (withAverage_frame ms (Node.minipoolIds nd) nd2) as (Hid' & Htot' & Hwd').
    destruct (withAverage_stakes ms (Node.minipoolIds nd) nd2) as (Hids' & _).
    unfold node_evolves. rewrite Hid', Hids', Htot', Hwd', Hid, Hids, Htot, Hwd.
    split; [|split; [auto|discriminate]].
    split; [reflexivity|]. split; [auto|]. right. split; reflexivity.
Qed.

(** In a store whose nodes sit under their ids, an invocation keeps every
    node stored, evolved as [node_evolves] says, and stores no new one. *)
Lemma dispatch_node i st k :
  nodes_wf (nodes st) ->
  match nodes st !! k with
  | Some nd =>
    exists nd', nodes (store_of (dispatch i st)) !! k = Some nd' /\
      node_evolves nd nd' /\
      (is_creation i = false -> Node.minipoolIds nd' = Node.minipoolIds nd) /\
      (is_finalisation i = false ->
       Node.totalFinalizedMinipools nd' = Node.totalFinalizedMinipools nd /\
       Node.withdrawableMinipools nd' = Node.withdrawableMinipools nd)
  | None => nodes (store_of (dispatch i st)) !! k = None
  end.
Proof.
  intros Hwf.
  destruct (dispatch_nodes_detail i st)
    as [->|(k0 & nd0 & nd' & Hk0 & -> & Hev & Hids & Hcnt)].
  - destruct (nodes st !! k) as [nd|]; [|reflexivity].
    exists nd. split; [reflexivity|]. split; [apply node_evolves_refl|]. auto.
  - rewrite (Hwf _ _ Hk0). destruct (decide (k0 = k)) as [->|Hne].
    + rewrite Hk0, lookup_insert_eq. eauto.
    + rewrite lookup_insert_ne by exact Hne.
      destruct (nodes st !! k) as [nd|]; [|reflexivity].
      exists nd. split; [reflexivity|]. split; [apply node_evolves_refl|]. auto.
Qed.

Section AlongARun.
  (** A relation between the values of a node that every step respects
      carries over to runs. *)
  Variable R : Node.t -> Node.t -> Prop.
  Hypothesis R_refl : forall nd, R nd nd.
  Hypothesis R_trans : forall nd1 nd2 nd3, R nd1 nd2 -> R nd2 nd3 -> R nd1 nd3.
  Hypothesis R_step : forall nd nd', node_evolves nd nd' -> R nd nd'.

Lemma reachable_node st st' k nd :
  nodes_wf (nodes st) ->
  nodes st !! k = Some nd ->
  reachable st st' ->
  exists nd', nodes st' !! k = Some nd' /\ R nd nd'.
Proof.
  intros Hwf Hk Hreach.
  induction Hreach as [|st' i Hreach (nd1 & Hk1 & HR1)]; [eauto|].
  pose proof (dispatch_node i st' k (reachable_nodes_wf _ _ Hreach Hwf)) as Hstep.
  rewrite Hk1 in Hstep. destruct Hstep as (nd' & Hk' & Hev & _).
  exists nd'. split; [exact Hk'|]. eapply R_trans; [exact HR1|]. apply R_step, Hev.
Qed.

End AlongARun.

(** X14. The handlers never create and never delete a node: along any run
    from a store whose nodes sit under their ids, the set of node ids stays
    the same. *)
Theorem nodes_never_created_nor_deleted st st' :
  nodes_wf (nodes st) ->
  reachable st st' ->
  dom (nodes st') = dom (nodes st).
Proof.
  intros Hwf Hreach. induction Hreach as [|st' i Hreach IH]; [reflexivity|].
  rewrite <- IH. apply set_eq. intros k. rewrite !elem_of_dom.
  pose proof (dispatch_node i st' k (reachable_nodes_wf _ _ Hreach Hwf)) as Hstep.
  destruct (nodes st' !! k) as [nd|].
  - destruct Hstep as (nd' & -> & _). split; eauto.
  - rewrite Hstep. reflexivity.
Qed.

Lemma nodes_never_created_nor_deleted_witness :
  dom (nodes (store_of (dispatch (OnMinipoolCreated ex_chain (Some ex_created)) ex_store)))
  = dom (nodes ex_store).
Proof.
  apply (nodes_never_created_nor_deleted ex_store).
  - apply map_Forall_singleton. reflexivity.
  - apply reachable_step, reachable_refl.
Defined.

(** X15. [totalFinalizedMinipools] never decreases: along any run, a stored
    node stays stored with a count at least as large. *)
Theorem totalFinalizedMinipools_monotone st st' k nd :
  nodes_wf (nodes st) ->
  nodes st !! k = Some nd ->
  reachable st st' ->
  exists nd', nodes st' !! k = Some nd' /\
    Node.totalFinalizedMinipools nd <= Node.totalFinalizedMinipools nd'.
Proof.
  apply (reachable_node
           (fun nd nd' => Node.totalFinalizedMinipools nd <= Node.totalFinalizedMinipools nd')).
  - intros; lia.
  - intros; lia.
  - intros nd0 nd' (_ & _ & [[-> _]|[-> _]]); lia.
Qed.

Lemma totalFinalizedMinipools_monotone_witness :
  exists nd',
    nodes (store_of (dispatch
             (OnIncrementNodeFinalisedMinipoolCount ex_chain (Some ex_finalised))
             ex_store3)) !! "0xn" = Some nd' /\
    Node.totalFinalizedMinipools ex_node3 <= Node.totalFinalizedMinipools nd'.
Proof.
  apply (totalFinalizedMinipools_monotone ex_store3 _ "0xn" ex_node3).
  - exact ex_store3_nodes_wf.
  - reflexivity.
  - apply reachable_step, reachable_refl.
Defined.

(** ** The id list of a node along a run *)

Lemma withMinipoolId_incl a0 ids x :
  x ∈ default [] ids -> x ∈ withMinipoolId a0 ids.
Proof.
  unfold withMinipoolId. destruct ids as [l|]; simpl; [|inversion 1].
  intros Hx. destruct (notIndexed a0 l); [apply elem_of_app; left|]; exact Hx.
Qed.

Lemma withMinipoolId_NoDup a ids :
  NoDup (default [] ids) -> NoDup (withMinipoolId a ids).
Proof.
  unfold withMinipoolId, notIndexed. destruct ids as [l|]; simpl.
  - intros Hl. destruct (bool_decide (Some a ∈ l)) eqn:Hin; simpl; [exact Hl|].
    apply bool_decide_eq_false in Hin.
    apply NoDup_app. split; [exact Hl|]. split; [|apply NoDup_singleton].
    intros x Hx Hx'. apply list_elem_of_singleton in Hx'. congruence.
  - intros _. rewrite bool_decide_eq_true_2 by apply list_elem_of_here.
    apply NoDup_singleton.
Qed.

(** X16. An id is never taken out of a node's list: along any run, from a
    store whose nodes sit under their ids, every id listed for a node is
    still listed for it, destroyed and finalized minipools included. *)
Theorem minipoolIds_never_removed st st' k nd x :
  nodes_wf (nodes st) ->
  nodes st !! k = Some nd ->
  x ∈ idsOf nd ->
  reachable st st' ->
  exists nd', nodes st' !! k = Some nd' /\ x ∈ idsOf nd'.
Proof.
  intros Hwf Hk Hx Hreach.
  destruct (reachable_node (fun nd nd' => forall x, x ∈ idsOf nd -> x ∈ idsOf nd'))
    with (st := st) (st' := st') (k := k) (nd := nd) as (nd' & Hk' & HR); auto.
  - intros nd0 nd' (_ & [Hids|[a Hids]] & _) y; unfold idsOf; rewrite Hids; [auto|].
    apply withMinipoolId_incl.
  - eauto.
Qed.

Lemma minipoolIds_never_removed_witness :
  Some "0xc" ∈ idsOf ex_node3 /\
  exists nd',
    nodes (store_of (dispatch (OnMinipoolDestroyed ex_chain (Some ex_destroyed)) ex_store3))
      !! "0xn" = Some nd' /\
    Some "0xc" ∈ idsOf nd'.
Proof.
  assert (Hin : Some "0xc" ∈ idsOf ex_node3)
    by (apply list_elem_of_further, list_elem_of_further, list_elem_of_here).
  split; [exact Hin|].
  apply (minipoolIds_never_removed ex_store3 _ "0xn" ex_node3 (Some "0xc")).
  - exact ex_store3_nodes_wf.
  - reflexivity.
  - exact Hin.
  - apply reachable_step, reachable_refl.
Defined.

(** X17. No invocation introduces a duplicate: along any run, a node whose
    id list has no duplicates keeps a list without duplicates. *)
Theorem minipoolIds_stay_duplicate_free st st' k nd :
  nodes_wf (nodes st) ->
  nodes st !! k = Some nd ->
  NoDup (idsOf nd) ->
  reachable st st' ->
  exists nd', nodes st' !! k = Some nd' /\ NoDup (idsOf nd').
Proof.
  intros Hwf Hk Hnd Hreach.
  destruct (reachable_node (fun nd nd' => NoDup (idsOf nd) -> NoDup (idsOf nd')))
    with (st := st) (st' := st') (k := k) (nd := nd) as (nd' & Hk' & HR); auto.
  - intros nd0 nd' (_ & [Hids|[a Hids]] & _); unfold idsOf; rewrite Hids; [auto|].
    apply withMinipoolId_NoDup.
  - eauto.
Qed.

Lemma minipoolIds_stay_duplicate_free_witness :
  NoDup (idsOf ex_node) /\
  exists nd',
    nodes (store_of (dispatch (OnMinipoolCreated ex_chain_later (Some ex_created))
             (store_of (dispatch (OnMinipoolCreated ex_chain (Some ex_created)) ex_store))))
      !! "0xn" = Some nd' /\
    NoDup (idsOf nd').
Proof.
  split; [apply NoDup_nil_2|].
  apply (minipoolIds_stay_duplicate_free ex_store _ "0xn" ex_node).
  - apply map_Forall_singleton. reflexivity.
  - reflexivity.
  - apply NoDup_nil_2.
  - apply reachable_step, reachable_step, reachable_refl.
Defined.

(** ** The counters along a run *)

(** X18. The relation [withdrawableMinipools = max 0 (totalFinalizedMinipools - 1)]
    between the two counters of a node, once true, stays true along any
    run: the handlers either keep both counters or set them in this
    relation. *)
Theorem withdrawable_tracks_total st st' k nd :
  nodes_wf (nodes st) ->
  nodes st !! k = Some nd ->
  Node.withdrawableMinipools nd = Z.max 0 (Node.totalFinalizedMinipools nd - 1) ->
  reachable st st' ->
  exists nd', nodes st' !! k = Some nd' /\
    Node.withdrawableMinipools nd' = Z.max 0 (Node.totalFinalizedMinipools nd' - 1).
Proof.
  intros Hwf Hk Hnd Hreach.
  destruct (reachable_node
              (fun nd nd' =>
                 Node.withdrawableMinipools nd = Z.max 0 (Node.totalFinalizedMinipools nd - 1) ->
                 Node.withdrawableMinipools nd'
                 = Z.max 0 (Node.totalFinalizedMinipools nd' - 1)))
    with (st := st) (st' := st') (k := k) (nd := nd) as (nd' & Hk' & HR); auto.
  - intros nd0 nd' (_ & _ & [[-> ->]|[_ ->]]); auto.
  - eauto.
Qed.

Lemma withdrawable_tracks_total_witness :
  Node.withdrawableMinipools ex_node3 = Z.max 0 (Node.totalFinalizedMinipools ex_node3 - 1) /\
  exists nd',
    nodes (store_of (dispatch
             (OnIncrementNodeFinalisedMinipoolCount ex_chain (Some ex_finalised))
             (store_of (dispatch
                (OnIncrementNodeFinalisedMinipoolCount ex_chain (Some ex_finalised))
                ex_store3)))) !! "0xn" = Some nd' /\
    Node.withdrawableMinipools nd' = Z.max 0 (Node.totalFinalizedMinipools nd' - 1).
Proof.
  split; [reflexivity|].
  apply (withdrawable_tracks_total ex_store3 _ "0xn" ex_node3).
  - exact ex_store3_nodes_wf.
  - reflexivity.
  - reflexivity.
  - apply reachable_step, reachable_step, reachable_refl.
Defined.

(** X19. Only the creation handler changes a node's id list, and only the
    finalization handler changes its counters: in a store whose nodes sit
    under their ids, any other invocation leaves every stored node with the
    same [minipoolIds], respectively the same [totalFinalizedMinipools] and
    [withdrawableMinipools]. *)
Theorem node_frame i st k nd :
  nodes_wf (nodes st) ->
  nodes st !! k = Some nd ->
  exists nd',
    nodes (store_of (dispatch i st)) !! k = Some nd' /\
    Node.id nd' = Node.id nd /\
    (is_creation i = false -> Node.minipoolIds nd' = Node.minipoolIds nd) /\
    (is_finalisation i = false ->
     Node.totalFinalizedMinipools nd' = Node.totalFinalizedMinipools nd /\
     Node.withdrawableMinipools nd' = Node.withdrawableMinipools nd).
Proof.
  intros Hwf Hk. pose proof (dispatch_node i st k Hwf) as Hstep.
  rewrite Hk in Hstep. destruct Hstep as (nd' & Hk' & (Hid & _) & Hids & Hcnt).
  exists nd'. auto.
Qed.

Lemma node_frame_witness :
  exists nd',
    nodes (store_of (dispatch (OnMinipoolDestroyed ex_chain (Some ex_destroyed)) ex_store3))
      !! "0xn" = Some nd' /\
    Node.id nd' = Node.id ex_node3 /\
    (false = false -> Node.minipoolIds nd' = Node.minipoolIds ex_node3) /\
    (false = false ->
     Node.totalFinalizedMinipools nd' = Node.totalFinalizedMinipools ex_node3 /\
     Node.withdrawableMinipools nd' = Node.withdrawableMinipools ex_node3).
Proof.
  apply (node_frame (OnMinipoolDestroyed ex_chain (Some ex_destroyed)) ex_store3
           "0xn" ex_node3 ex_store3_nodes_wf eq_refl).
Defined.

(** ** Registered data sources *)

Lemma dispatch_minipools_kept i st k :
  is_Some (minipools st !! k) ->
  is_Some (minipools (store_of (dispatch i st)) !! k).
Proof.
  intros Hk. destruct i as [chain event|chain event|chain call]; simpl.
  - destruct (handleMinipoolCreated_minipools chain event st)
      as [->|(a & owner & fee & _ & ->)]; [exact Hk|].
    apply lookup_insert_is_Some. destruct (decide (a = k)); auto.
  - destruct (handleMinipoolDestroyed_minipools chain event st)
      as [->|(a & m0 & ts & _ & ->)]; [exact Hk|].
    apply lookup_insert_is_Some. destruct (decide (Minipool.id m0 = k)); auto.
  - destruct (handleIncrementNodeFinalisedMinipoolCount_minipools chain call st)
      as [->|(a & m0 & ts & _ & ->)]; [exact Hk|].
    apply lookup_insert_is_Some. destruct (decide (Minipool.id m0 = k)); auto.
Qed.

Lemma dispatch_templates i st :
  templates (store_of (dispatch i st)) = templates st \/
  exists a,
    templates (store_of (dispatch i st)) = templates st ++ [a] /\
    minipools st !! a = None /\
    is_Some (minipools (store_of (dispatch i st)) !! a).
Proof.
  destruct i as [chain event|chain event|chain call]; simpl.
  - destruct (handleMinipoolCreated_cases chain event st)
      as [->|(ev & p & n & a & nd & _ & _ & _ & _ & Ha & _ & ->)]; [left; reflexivity|].
    unfold created_outcome.
    destruct (getNewMinipoolFee chain); [|left; reflexivity].
    destruct (setEffectiveRPLStaked chain _); [|left; reflexivity].
    right. exists a. simpl. split; [reflexivity|]. split; [exact Ha|].
    rewrite lookup_insert_eq. eauto.
  - destruct (handleMinipoolDestroyed_cases chain event st)
      as [->|(ev & p & n & a & b & m & nd & _ & _ & _ & _ & _ & _ & _ & ->)];
      [left; reflexivity|].
    unfold destroyed_outcome. destruct (setEffectiveRPLStaked chain nd); left; reflexivity.
  - destruct (handleIncrementNodeFinalisedMinipoolCount_cases chain call st)
      as [->|(c & b & a & m & n & nd & _ & _ & _ & _ & _ & _ & ->)];
      [left; reflexivity|].
    unfold finalised_outcome. destruct (setEffectiveRPLStaked chain _); left; reflexivity.
Qed.

Lemma templates_registered_stored st st' :
  (forall a, a ∈ templates st -> is_Some (minipools st !! a)) ->
  reachable st st' ->
  forall a, a ∈ templates st' -> is_Some (minipools st' !! a).
Proof.
  intros Hinit Hreach.
  induction Hreach as [|st' i _ IH]; [exact Hinit|].
  destruct (dispatch_templates i st') as [Heq|(a & Heq & _ & Ha)]; rewrite Heq.
  - intros a Hin. apply dispatch_minipools_kept, IH, Hin.
  - intros a' Hin. apply elem_of_app in Hin as [Hin|Hin].
    + apply dispatch_minipools_kept, IH, Hin.
    + apply list_elem_of_singleton in Hin as ->. exact Ha.
Qed.

(** X20. Data sources are registered for stored minipools only, and never
    unregistered: along any run from a store in which every registered
    address is a stored minipool, this stays so, and the list of registered
    addresses only grows at its end. *)
Theorem templates_are_stored_minipools st st' :
  (forall a, a ∈ templates st -> is_Some (minipools st !! a)) ->
  reachable st st' ->
  (forall a, a ∈ templates st' -> is_Some (minipools st' !! a)) /\
  templates st `prefix_of` templates st'.
Proof.
  intros Hinit Hreach.
  induction Hreach as [|st' i _ [IHin IHpre]]; [split; [exact Hinit|reflexivity]|].
  destruct (dispatch_templates i st') as [Heq|(a & Heq & _ & Ha)]; rewrite Heq.
  - split; [|exact IHpre]. intros a Hin. apply dispatch_minipools_kept, IHin, Hin.
  - split.
    + intros a' Hin. apply elem_of_app in Hin as [Hin|Hin].
      * apply dispatch_minipools_kept, IHin, Hin.
      * apply list_elem_of_singleton in Hin as ->. exact Ha.
    + etransitivity; [exact IHpre|]. apply prefix_app_r. reflexivity.
Qed.

Lemma templates_are_stored_minipools_witness :
  let st' := store_of (dispatch (OnMinipoolCreated ex_chain (Some ex_created)) ex_store) in
  (forall a, a ∈ templates st' -> is_Some (minipools st' !! a)) /\
  templates ex_store `prefix_of` templates st'.
Proof.
  apply (templates_are_stored_minipools ex_store).
  - intros a Hin. inversion Hin.
  - apply reachable_step, reachable_refl.
Defined.

(** X21. A creation event registers its address at most once over a run:
    the handler appends an address only when no minipool is stored under
    it, so a list of registered addresses without duplicates, all of them
    stored minipools, stays without duplicates. *)
Theorem templates_stay_duplicate_free st st' :
  (forall a, a ∈ templates st -> is_Some (minipools st !! a)) ->
  NoDup (templates st) ->
  reachable st st' ->
  NoDup (templates st').
Proof.
  intros Hinit Hnd Hreach.
  induction Hreach as [|st' i Hreach IH]; [exact Hnd|].
  pose proof (templates_registered_stored _ _ Hinit Hreach) as Hstored.
  destruct (dispatch_templates i st') as [->|(a & -> & Ha & _)]; [exact IH|].
  apply NoDup_app. split; [exact IH|]. split; [|apply NoDup_singleton].
  intros x Hx Hx'. apply list_elem_of_singleton in Hx' as ->.
  destruct (Hstored a Hx) as [m Hm]. congruence.
Qed.

Lemma templates_stay_duplicate_free_witness :
  NoDup (templates (store_of (dispatch (OnMinipoolCreated ex_chain_later (Some ex_created))
           (store_of (dispatch (OnMinipoolCreated ex_chain (Some ex_created)) ex_store))))).
Proof.
  apply (templates_stay_duplicate_free ex_store).
  - intros a Hin. inversion Hin.
  - apply NoDup_nil_2.
  - apply reachable_step, reachable_step, reachable_refl.
Defined.

(** ** The fee of a stored minipool *)

(** X22. A minipool's fee and node link are fixed once it is stored: along
    any run (creations included) from a store whose minipools sit under
    their ids, a stored minipool stays stored, never overwritten by a
    creation, with the same [fee] and [node]. *)
Theorem minipool_fee_fixed_along_run st st' k m :
  minipools_wf (minipools st) ->
  minipools st !! k = Some m ->
  reachable st st' ->
  exists m',
    minipools st' !! k = Some m' /\
    Minipool.node m' = Minipool.node m /\
    Minipool.fee m' = Minipool.fee m.
Proof.
  intros Hwf Hk Hreach. apply (fee_never_revised st st' k m Hwf Hk Hreach).
Qed.

Lemma minipool_fee_fixed_along_run_witness :
  exists m',
    minipools (store_of (dispatch (OnMinipoolDestroyed ex_chain (Some ex_destroyed)) ex_store3))
      !! "0xc" = Some m' /\
    Minipool.node m' = Minipool.node (ex_minipool "0xc" 30) /\
    Minipool.fee m' = Minipool.fee (ex_minipool "0xc" 30).
Proof.
  apply (minipool_fee_fixed_along_run ex_store3 _ "0xc" (ex_minipool "0xc" 30)
           ex_store3_minipools_wf eq_refl).
  apply reachable_step, reachable_refl.
Defined.

(** ** What an aborted invocation leaves *)

(** X23. An aborted invocation has saved no node and registered no data
    source, whatever the event and the store: the node store and the list
    of registered addresses are those it started with. *)
Theorem aborted_saves_no_node i st st' :
  dispatch i st = Aborted st' ->
  nodes st' = nodes st /\ templates st' = templates st.
Proof.
  destruct i as [chain event|chain event|chain call]; simpl.
  - destruct (handleMinipoolCreated_cases chain event st)
      as [->|(ev & p & n & a & nd & _ & _ & _ & _ & _ & _ & ->)]; [discriminate|].
    unfold created_outcome.
    destruct (getNewMinipoolFee chain); [|intros [= <-]; auto].
    destruct (setEffectiveRPLStaked chain _); [discriminate|intros [= <-]; auto].
  - destruct (handleMinipoolDestroyed_cases chain event st)
      as [->|(ev & p & n & a & b & m & nd & _ & _ & _ & _ & _ & _ & _ & ->)];
      [discriminate|].
    unfold destroyed_outcome.
    destruct (setEffectiveRPLStaked chain nd); [discriminate|intros [= <-]; auto].
  - destruct (handleIncrementNodeFinalisedMinipoolCount_cases chain call st)
      as [->|(c & b & a & m & n & nd & _ & _ & _ & _ & _ & _ & ->)]; [discriminate|].
    unfold finalised_outcome.
    destruct (setEffectiveRPLStaked chain _); [discriminate|intros [= <-]; auto].
Qed.

Lemma aborted_saves_no_node_witness :
  exists st',
    dispatch (OnMinipoolDestroyed ex_chain_stake_reverting (Some ex_destroyed)) ex_store3
    = Aborted st' /\
    nodes st' = nodes ex_store3 /\ templates st' = templates ex_store3.
Proof.
  eexists. split; [vm_compute; reflexivity|].
  apply (aborted_saves_no_node
           (OnMinipoolDestroyed ex_chain_stake_reverting (Some ex_destroyed)) ex_store3).
  vm_compute. reflexivity.
Defined.

(** ** No active minipool *)

(** X24. When none of the listed ids loads an active minipool (each is
    null, not stored, finalized or destroyed), the average is 0: no
    division by a zero count is attempted. *)
Theorem getAverageFeeForActiveMinipools_none_active
    (ms : gmap string Minipool.t) (ids : list (option string)) :
  (forall k m, Some k ∈ ids -> ms !! k = Some m ->
     Minipool.finalizedBlockTime m <> 0 \/ Minipool.destroyedBlockTime m <> 0) ->
  getAverageFeeForActiveMinipools ms (Some ids) = 0.
Proof.
  intros Hnone. rewrite average_refines. change (default [] (Some ids)) with ids.
  assert (Hfees : spec_activeFees ms ids = []).
  { destruct (spec_activeFees ms ids) as [|f fees] eqn:Hf; [reflexivity|].
    assert (Hin : f ∈ spec_activeFees ms ids) by (rewrite Hf; apply list_elem_of_here).
    apply list_elem_of_omap in Hin as (i & Hi & Hfee).
    apply spec_activeFee_Some in Hfee as (k & m & -> & Hk & Hfin & Hdes & _).
    destruct (Hnone k m Hi Hk); congruence. }
  rewrite Hfees. reflexivity.
Qed.

Lemma getAverageFeeForActiveMinipools_none_active_witness :
  getAverageFeeForActiveMinipools
    (<["0xc" := Minipool.set_destroyedBlockTime 1000 (ex_minipool "0xc" 30)]> ∅)
    (Some [Some "0xc"; Some "0xgone"]) = 0.
Proof.
  apply getAverageFeeForActiveMinipools_none_active.
  intros k m Hin Hk.
  apply elem_of_cons in Hin as [[= ->]|Hin].
  - vm_compute in Hk. injection Hk as <-. right. discriminate.
  - apply elem_of_cons in Hin as [[= ->]|Hin]; [|inversion Hin].
    vm_compute in Hk. discriminate.
Defined.
